(** * Shopify customer-account checker: embedding of [src/lib/checker.ts]
      and of the batch endpoint [src/app/api/check/route.ts].

    JavaScript strings are sequences of UTF-16 code units; they are modelled
    as lists of code units ([N]).  The HTTP transport ([fetch]) and the
    platform URL parser ([new URL]) are not code of the repository: they are
    section variables, and every statement holds for all of them. *)

From Stdlib Require Import NArith Ascii String DecimalString Lia.
From stdpp Require Import base option list gmap.

Local Open Scope N_scope.

(** ** JavaScript strings *)

Module Js.

Definition jsstring : Type := list N.

(** A source literal made of ASCII characters. *)
Definition lit (s : string) : jsstring :=
  List.map N_of_ascii (list_ascii_of_string s).

(** The same, between double quotes (code unit 34). *)
Definition quoted (s : string) : jsstring := [34] ++ lit s ++ [34].

(** [a.startsWith(p)] *)
Fixpoint startsWith (s p : jsstring) {struct p} : bool :=
  match p, s with
  | [], _ => true
  | _ :: _, [] => false
  | c :: p', d :: s' => (c =? d) && startsWith s' p'
  end.

(** [a.includes(p)]: [p] occurs as a contiguous run of code units. *)
Fixpoint includes (s p : jsstring) : bool :=
  startsWith s p ||
  match s with
  | [] => false
  | _ :: s' => includes s' p
  end.

(** Truthiness of a string: only the empty string is falsy. *)
Definition truthy (s : jsstring) : bool :=
  match s with [] => false | _ :: _ => true end.

(** [o || s] with [s] the empty string, for a nullable string [o]. *)
Definition or_empty (o : option jsstring) : jsstring :=
  match o with Some s => s | None => [] end.

(** Code units removed by [trim]: WhiteSpace and LineTerminator of
    ECMA-262 (TAB, LF, VT, FF, CR, SP, NBSP, the Zs class, LS, PS, BOM). *)
Definition isWhiteSpace (c : N) : bool :=
  ((9 <=? c) && (c <=? 13)) || (c =? 32) || (c =? 160) || (c =? 5760) ||
  ((8192 <=? c) && (c <=? 8202)) || (c =? 8232) || (c =? 8233) ||
  (c =? 8239) || (c =? 8287) || (c =? 12288) || (c =? 65279).

Fixpoint dropWhile (p : N -> bool) (s : jsstring) : jsstring :=
  match s with
  | [] => []
  | c :: s' => if p c then dropWhile p s' else s
  end.

(** Removes the longest suffix made of code units satisfying [p]. *)
Fixpoint dropWhileEnd (p : N -> bool) (s : jsstring) : jsstring :=
  match s with
  | [] => []
  | c :: s' =>
      match dropWhileEnd p s' with
      | [] => if p c then [] else [c]
      | r => c :: r
      end
  end.

(** [s.trim()] *)
Definition trim (s : jsstring) : jsstring :=
  dropWhileEnd isWhiteSpace (dropWhile isWhiteSpace s).

(** The character class [[\n,]]. *)
Definition isSeparator (c : N) : bool := (c =? 10) || (c =? 44).

(** [s.split(/[\n,]+/)].  [inRun] tells that the previous code unit belonged
    to a separator run, [cur] is the piece being read.  A separator run at
    either end of the input leaves an empty piece there, and the empty input
    gives one empty piece, as in ECMA-262. *)
Fixpoint splitFrom (inRun : bool) (cur s : jsstring) : list jsstring :=
  match s with
  | [] => [cur]
  | c :: s' =>
      if isSeparator c then
        if inRun then splitFrom true [] s'
        else cur :: splitFrom true [] s'
      else splitFrom false (cur ++ [c]) s'
  end.

Definition splitSeparators (s : jsstring) : list jsstring :=
  splitFrom false [] s.

(** The split on single newlines, as [src/check.js] does on a file. *)
Fixpoint splitLinesFrom (cur s : jsstring) : list jsstring :=
  match s with
  | [] => [cur]
  | c :: s' =>
      if c =? 10 then cur :: splitLinesFrom [] s'
      else splitLinesFrom (cur ++ [c]) s'
  end.

Definition splitLines (s : jsstring) : list jsstring := splitLinesFrom [] s.

(** The replacement of [/\/+$/] by the empty string: the first match of
    the pattern is the whole run of slashes that ends the string. *)
Definition stripTrailingSlashes (s : jsstring) : jsstring :=
  dropWhileEnd (fun c => c =? 47) s.

(** Template interpolation of a non-negative integer. *)
Definition ofNumber (n : N) : jsstring :=
  lit (NilZero.string_of_uint (N.to_uint n)).

End Js.
Import Js.

(** ** Data model ([src/lib/checker.ts], lines 1-16) *)

Inductive AccountType : Type :=
  | New
  | Legacy
  | PasswordProtected
  | NotShopify
  | Unknown
  | Error.

#[global] Instance AccountType_eq_dec : EqDecision AccountType.
Proof. solve_decision. Defined.

(** Optional fields are [option]s: [None] is an absent property. *)
Record CheckResult : Type := mkCheckResult {
  url : jsstring;
  type : AccountType;
  status : option N;
  redirect : option jsstring;
  note : option jsstring;
  error : option jsstring;
}.

(** ** Exceptions *)

(** A thrown value: an [Error] instance with its [message], or any other
    value with its [String(...)] rendering. *)
Inductive thrown : Type :=
  | ErrorObject (message : jsstring)
  | NonError (rendering : jsstring).

Inductive result (A : Type) : Type :=
  | Ok (a : A)
  | Throw (e : thrown).
Arguments Ok {A} a.
Arguments Throw {A} e.

Definition bindR {A B} (m : result A) (k : A -> result B) : result B :=
  match m with
  | Ok a => k a
  | Throw e => Throw e
  end.

Notation "'try' x <~ m 'in' k" := (bindR m (fun x => k))
  (at level 10, x name, m at level 100, k at level 200).

(** ** The transport's view of a request and of a response *)

Inductive RedirectMode : Type := Follow | ErrorOnRedirect | Manual.

Record Request : Type := mkRequest {
  req_url : jsstring;
  req_redirect : RedirectMode;
  req_headers : list (jsstring * jsstring);
}.

(** [resp_headers] is keyed by lower-case header name, as [Headers.get]
    looks names up; [resp_text] is what [await response.text()] gives. *)
Record Response : Type := mkResponse {
  resp_status : N;
  resp_headers : gmap jsstring jsstring;
  resp_text : result jsstring;
}.

Definition headers_get (r : Response) (name : jsstring) : option jsstring :=
  resp_headers r !! name.

Record Event : Type := mkEvent {
  ev_request : Request;
  ev_outcome : result Response;
}.

(** ** URL normalisation ([normalizeUrl], [parseUrls]) *)

Definition normalizeUrl (input : jsstring) : option jsstring :=
  let url := trim input in
  if negb (truthy url) then None
  else if startsWith url (lit "#") then None
  else
    let url := if negb (startsWith url (lit "http"))
               then lit "https://" ++ url else url in
    let url := stripTrailingSlashes url in
    Some url.

Definition parseUrls (input : jsstring) : list jsstring :=
  omap normalizeUrl (splitSeparators input).

(** ** Signals *)

Definition NEW_ACCOUNT_REDIRECT_PATTERNS : list jsstring :=
  [ lit "shopify.com/authentication";
    lit "/auth/login";
    lit "accounts.shopify.com" ].

(** [patterns.some((p) => s.includes(p))] *)
Definition some_included (patterns : list jsstring) (s : jsstring) : bool :=
  existsb (fun p => includes s p) patterns.

Definition isNewAccountRedirect (url : jsstring) : bool :=
  some_included NEW_ACCOUNT_REDIRECT_PATTERNS url.

Definition newAccountSignals : list jsstring :=
  [ lit "shopify.com/authentication";
    lit "accounts.shopify.com";
    lit "init-customer-accounts";
    lit "initCustomerAccounts";
    lit "init-shop-for-new-customer-accounts";
    lit "shopify-login";
    lit "SignInWithShop" ].

Definition legacySignals : list jsstring :=
  [ lit "customer[password]";
    lit "customer_login";
    lit "name=" ++ quoted "customer[email]";
    lit "action=" ++ quoted "/account/login";
    lit "action=" ++ quoted "/account" ].

(** ** Body classification ([classifyFromBody]) *)

Definition classifyFromBody (storeUrl body : jsstring) (status_ : N)
  : CheckResult :=
  let hasNewSignal := some_included newAccountSignals body in
  let hasLegacySignal := some_included legacySignals body in
  let hasPasswordField :=
    includes body (lit "type=" ++ quoted "password") &&
    includes body (lit "customer") in
  if hasNewSignal && negb hasPasswordField then
    {| url := storeUrl; type := New; status := Some status_;
       redirect := None; note := None; error := None |}
  else if hasPasswordField && hasLegacySignal then
    {| url := storeUrl; type := Legacy; status := Some status_;
       redirect := None; note := None; error := None |}
  else if hasNewSignal then
    {| url := storeUrl; type := New; status := Some status_;
       redirect := None; note := None; error := None |}
  else if hasPasswordField then
    {| url := storeUrl; type := Legacy; status := Some status_;
       redirect := None; note := None; error := None |}
  else if includes body (lit "password-page") ||
          includes body (lit "storefront-password") then
    {| url := storeUrl; type := PasswordProtected; status := Some status_;
       redirect := None;
       note := Some (lit "Store is password-protected (not yet live)");
       error := None |}
  else if negb (includes body (lit "Shopify")) &&
          negb (includes body (lit "shopify")) then
    {| url := storeUrl; type := NotShopify; status := Some status_;
       redirect := None;
       note := Some (lit "Does not appear to be a Shopify store");
       error := None |}
  else
    {| url := storeUrl; type := Unknown; status := Some status_;
       redirect := None;
       note := Some (lit "Could not determine account type from page content");
       error := None |}.

(** ** Specification vocabulary *)

(** [p] occurs in [s] as a contiguous substring. *)
Definition contains (s p : jsstring) : Prop :=
  exists before after, s = before ++ p ++ after.

Definition containsAny (patterns : list jsstring) (s : jsstring) : Prop :=
  exists p, In p patterns /\ contains s p.

Definition HasNewSignal (body : jsstring) : Prop :=
  containsAny newAccountSignals body.

Definition HasLegacySignal (body : jsstring) : Prop :=
  containsAny legacySignals body.

Definition HasPasswordField (body : jsstring) : Prop :=
  contains body (lit "type=" ++ quoted "password") /\
  contains body (lit "customer").

(** A piece that [normalizeUrl] discards: blank, or a comment. *)
Definition blankOrComment (piece : jsstring) : Prop :=
  trim piece = [] \/ startsWith (trim piece) (lit "#") = true.

(** [first], then each piece of [rest] after its separator run. *)
Definition joinRuns (first : jsstring) (rest : list (jsstring * jsstring))
  : jsstring :=
  first ++ concat (List.map (fun rp => fst rp ++ snd rp) rest).

(** A non-empty run of newlines and commas. *)
Definition separatorRun (run : jsstring) : Prop :=
  run <> [] /\ Forall (fun c => isSeparator c = true) run.

(** A non-empty string without newline or comma. *)
Definition plainPiece (piece : jsstring) : Prop :=
  piece <> [] /\ Forall (fun c => isSeparator c = false) piece.

(** ** The probe ([checkStore]) *)

Definition ua : jsstring :=
  lit "Mozilla/5.0 (Macintosh; Intel Mac OS X 10_15_7) AppleWebKit/537.36 (KHTML, like Gecko) Chrome/120.0.0.0 Safari/537.36".

Definition maxRedirects : nat := 6.

(** The request of every iteration: a GET (the default method) of
    [currentUrl] with redirects left to the caller. *)
Definition request (currentUrl : jsstring) : Request :=
  {| req_url := currentUrl; req_redirect := Manual;
     req_headers := [(lit "User-Agent", ua)] |}.

(** How an iteration of the loop ends: [return] or [continue]. *)
Inductive Step : Type :=
  | Return (r : CheckResult)
  | Continue (currentUrl : jsstring).

(** U+2014, the dash of the 404 note. *)
Definition emDash : jsstring := [8212].

Section Checker.

(** [new URL(u).hostname] and [new URL(l, base).href]; both throw a
    [TypeError] on input that does not parse. *)
Variable url_hostname : jsstring -> result jsstring.
Variable url_href : jsstring -> jsstring -> result jsstring.

(** The transport: a state machine answering each request with a response
    or an exception. *)
Context {Transport : Type}.
Variable transport_fetch :
  Transport -> Request -> Transport * result Response.

(** The world of a probe: the transport and the requests made so far. *)
Record World : Type := mkWorld {
  transport : Transport;
  log : list Event;
}.

Definition M (A : Type) : Type := World -> World * result A.

Definition ret {A} (a : A) : M A := fun w => (w, Ok a).

Definition bind {A B} (m : M A) (k : A -> M B) : M B :=
  fun w =>
    match m w with
    | (w', Ok a) => k a w'
    | (w', Throw e) => (w', Throw e)
    end.

Definition lift {A} (r : result A) : M A := fun w => (w, r).

(** [try { m } catch (err) { h err }] *)
Definition try_catch {A} (m : M A) (h : thrown -> M A) : M A :=
  fun w =>
    match m w with
    | (w', Ok a) => (w', Ok a)
    | (w', Throw e) => h e w'
    end.

(** [await fetch(req)], recorded in the log. *)
Definition fetch (req : Request) : M Response :=
  fun w =>
    let (t', o) := transport_fetch (transport w) req in
    ({| transport := t'; log := log w ++ [mkEvent req o] |}, o).

(** The body of the loop after [fetch], lines 132-206 of [checker.ts]. *)
Definition on_response (storeUrl currentUrl : jsstring) (response : Response)
  : result Step :=
  let loginUrl := storeUrl ++ lit "/account/login" in
  let lastStatus := resp_status response in
  let location := or_empty (headers_get response (lit "location")) in
  if truthy location && isNewAccountRedirect location then
    Ok (Return {| url := storeUrl; type := New; status := Some lastStatus;
                  redirect := Some location; note := None; error := None |})
  else if (300 <=? lastStatus) && (lastStatus <? 400) && truthy location then
    try next <~ (if startsWith location (lit "http") then Ok location
                 else url_href location currentUrl) in
    Ok (Continue next)
  else
    try custom <~
      (if (lastStatus =? 406) && negb (bool_decide (currentUrl = loginUrl))
       then
         try redirectHost <~ url_hostname currentUrl in
         try storeHost <~ url_hostname storeUrl in
         if negb (bool_decide (redirectHost = storeHost)) then
           Ok (Some {| url := storeUrl; type := New;
                       status := Some lastStatus; redirect := None;
                       note := Some (lit "Redirected to custom account domain: "
                                       ++ redirectHost);
                       error := None |})
         else Ok None
       else Ok None) in
    match custom with
    | Some r => Ok (Return r)
    | None =>
        if lastStatus =? 200 then
          let poweredBy :=
            or_empty (headers_get response (lit "x-powered-by")) in
          let shopId := or_empty (headers_get response (lit "x-shopid")) in
          let serverTiming :=
            or_empty (headers_get response (lit "server-timing")) in
          let isShopify :=
            includes poweredBy (lit "Shopify") ||
            truthy shopId ||
            includes serverTiming (lit "shopify") ||
            includes serverTiming (lit "pageType") in
          try body <~ resp_text response in
          if negb isShopify &&
             negb (includes body (lit "Shopify")) &&
             negb (includes body (lit "myshopify")) then
            Ok (Return {| url := storeUrl; type := NotShopify;
                          status := Some lastStatus; redirect := None;
                          note :=
                            Some (lit "Does not appear to be a Shopify store");
                          error := None |})
          else Ok (Return (classifyFromBody storeUrl body lastStatus))
        else if lastStatus =? 404 then
          Ok (Return {| url := storeUrl; type := NotShopify;
                        status := Some lastStatus; redirect := None;
                        note := Some (lit "No /account/login page found "
                                        ++ emDash
                                        ++ lit " likely not a Shopify store");
                        error := None |})
        else
          Ok (Return {| url := storeUrl; type := Unknown;
                        status := Some lastStatus; redirect := None;
                        note := Some (lit "Unexpected status "
                                        ++ ofNumber lastStatus
                                        ++ lit " at " ++ currentUrl);
                        error := None |})
    end.

(** The [for] loop, with [n = maxRedirects - i] iterations left. *)
Fixpoint redirectLoop (n : nat) (storeUrl currentUrl : jsstring)
  (lastStatus : N) : M CheckResult :=
  match n with
  | O =>
      ret {| url := storeUrl; type := Unknown; status := Some lastStatus;
             redirect := None; note := Some (lit "Too many redirects");
             error := None |}
  | S n' =>
      bind (fetch (request currentUrl)) (fun response =>
      bind (lift (on_response storeUrl currentUrl response)) (fun step =>
      match step with
      | Return r => ret r
      | Continue next => redirectLoop n' storeUrl next (resp_status response)
      end))
  end.

(** The [catch] clause. *)
Definition on_exception (storeUrl : jsstring) (err : thrown) : M CheckResult :=
  ret {| url := storeUrl; type := Error; status := None; redirect := None;
         note := None;
         error := Some (match err with
                        | ErrorObject message => message
                        | NonError rendering => rendering
                        end) |}.

Definition checkStore (storeUrl : jsstring) : M CheckResult :=
  let loginUrl := storeUrl ++ lit "/account/login" in
  try_catch (redirectLoop maxRedirects storeUrl loginUrl 0)
            (on_exception storeUrl).

(** ** Vocabulary for the statements about the probe *)

(** The three redirect-target signals, spelled out. *)
Definition hasRedirectSignal (location : jsstring) : Prop :=
  contains location (lit "shopify.com/authentication") \/
  contains location (lit "/auth/login") \/
  contains location (lit "accounts.shopify.com").

(** The response carries no Location header with a signal. *)
Definition noRedirectSignal (resp : Response) : Prop :=
  forall location,
    headers_get resp (lit "location") = Some location ->
    ~ hasRedirectSignal location.

(** The response is a redirect that the loop follows to [next]: a status
    in [300, 400) and a non-empty Location without signal, taken as it is
    when it starts with [http] and resolved against [currentUrl]
    otherwise. *)
Inductive redirectsTo (currentUrl : jsstring) (resp : Response)
  (next : jsstring) : Prop :=
  | RedirectsTo (location : jsstring) :
      300 <= resp_status resp < 400 ->
      headers_get resp (lit "location") = Some location ->
      location <> [] ->
      ~ hasRedirectSignal location ->
      (if startsWith location (lit "http") then Ok location
       else url_href location currentUrl) = Ok next ->
      redirectsTo currentUrl resp next.

(** [follows i cur last w cur' last' w']: from the candidate [cur] in the
    world [w], each of the next [i] requests is answered by a redirect that
    the loop follows; [cur'], [last'] and [w'] are the candidate, the last
    status and the world after them. *)
Inductive follows :
  nat -> jsstring -> N -> World -> jsstring -> N -> World -> Prop :=
  | follows_0 cur last w : follows 0 cur last w cur last w
  | follows_S i cur last w resp w1 next cur' last' w' :
      fetch (request cur) w = (w1, Ok resp) ->
      redirectsTo cur resp next ->
      follows i next (resp_status resp) w1 cur' last' w' ->
      follows (S i) cur last w cur' last' w'.

(** What a result that is not an error says of the response [resp] it was
    computed from: it echoes the store URL and the status, and it has a
    [redirect] exactly when the Location header of [resp] held a signal,
    in which case it is that header, the type is [New] and there is no
    note. *)
Definition describes (storeUrl : jsstring) (resp : Response)
  (r : CheckResult) : Prop :=
  url r = storeUrl /\ type r <> Error /\ error r = None /\
  status r = Some (resp_status resp) /\
  match redirect r with
  | Some location =>
      type r = New /\ note r = None /\
      headers_get resp (lit "location") = Some location /\
      hasRedirectSignal location
  | None => noRedirectSignal resp
  end.

(** What the result of a probe that threw [e] says: an error, with the
    message of [e] (its rendering when [e] is not an [Error]), and neither
    status, redirect nor note. *)
Definition reports (storeUrl : jsstring) (e : thrown) (r : CheckResult)
  : Prop :=
  url r = storeUrl /\ type r = Error /\ status r = None /\
  redirect r = None /\ note r = None /\
  error r = Some (match e with
                  | ErrorObject message => message
                  | NonError rendering => rendering
                  end).

(** The event is a GET of some URL with manual redirects and the fixed
    User-Agent. *)
Definition isProbeRequest (ev : Event) : Prop :=
  exists u, ev_request ev = request u.

(** ** The batch endpoint ([POST] of [src/app/api/check/route.ts]) *)

(** [a.slice(from, to)] for [0 <= from <= to]. *)
Definition slice {A} (a : list A) (from to : nat) : list A :=
  take (to - from) (drop from a).

(** [await Promise.all(promises)]: all the values, or the first rejection. *)
Fixpoint promiseAll {A} (promises : list (result A)) : result (list A) :=
  match promises with
  | [] => Ok []
  | p :: ps =>
      try a <~ p in
      try rest <~ promiseAll ps in
      Ok (a :: rest)
  end.

(** How the stream of the reply ends. *)
Inductive StreamEnd : Type :=
  | Closed
  | Errored (e : thrown).

(** The classifications of a batch run interleaved, each on its own
    requests: [view k] is the world the [k]-th call of [checkStore] (in
    the order of [urls]) talks to, and the call settles with the result
    it computes there. *)
Variable view : nat -> World.

Definition settled (k : nat) (storeUrl : jsstring) : result CheckResult :=
  snd (checkStore storeUrl (view k)).

Definition CONCURRENCY : nat := 5.

(** The loop of [start(controller)]; [enqueued] is what the controller
    has received.  The serialisation of a result into a line of the
    stream is left out: a chunk is the result itself. *)
Fixpoint streamFrom (fuel i : nat) (urls : list jsstring)
  (enqueued : list CheckResult) : list CheckResult * StreamEnd :=
  match fuel with
  | O => (enqueued, Closed)
  | S fuel' =>
      if (i <? length urls)%nat then
        let batch := slice urls i (i + CONCURRENCY) in
        match promiseAll (imap (fun j u => settled (i + j) u) batch) with
        | Ok results =>
            streamFrom fuel' (i + CONCURRENCY) urls (enqueued ++ results)
        | Throw e => (enqueued, Errored e)
        end
      else (enqueued, Closed)
  end.

(** Every round of the loop advances [i] by five, so [length urls] rounds
    are enough (see [streamFrom_all]). *)
Definition start (urls : list jsstring) : list CheckResult * StreamEnd :=
  streamFrom (length urls) 0 urls [].

Inductive Reply : Type :=
  | Json400 (message : jsstring)
  | Streamed (chunks : list CheckResult) (ending : StreamEnd).

(** [rawUrls] is the [urls] property of the request body: [None] when it
    is absent, not an array or otherwise falsy. *)
Definition POST (rawUrls : option (list jsstring)) : Reply :=
  match rawUrls with
  | None => Json400 (lit "No URLs provided")
  | Some [] => Json400 (lit "No URLs provided")
  | Some rawUrls =>
      let urls := slice (flat_map parseUrls rawUrls) 0 100 in
      if (length urls =? 0)%nat then Json400 (lit "No valid URLs found")
      else let (chunks, ending) := start urls in Streamed chunks ending
  end.

End Checker.

(** ** Concrete collaborators, used to run the model *)

(** A transport that plays a script: one outcome per request, then
    failures. *)
Definition scripted (script : list (result Response)) (req : Request)
  : list (result Response) * result Response :=
  match script with
  | [] => ([], Throw (ErrorObject (lit "fetch failed")))
  | o :: script' => (script', o)
  end.

(** A transport whose answer depends on the requested URL only. *)
Definition site (answer : jsstring -> result Response) (t : unit)
  (req : Request) : unit * result Response :=
  (t, answer (req_url req)).

(** A response with the given status, headers and body. *)
Definition response (status_ : N) (hs : list (jsstring * jsstring))
  (body : jsstring) : Response :=
  {| resp_status := status_; resp_headers := list_to_map hs;
     resp_text := Ok body |}.

(** A stand-in for the platform URL parser on URLs of the shape
    [scheme://host/path]: the host is what lies between [://] and the next
    slash; anything else does not parse. *)
Fixpoint afterScheme (s : jsstring) : option jsstring :=
  match s with
  | [] => None
  | c :: s' =>
      if (c =? 58) && startsWith s' (lit "//") then Some (drop 2 s')
      else afterScheme s'
  end.

Fixpoint upToSlash (s : jsstring) : jsstring :=
  match s with
  | [] => []
  | c :: s' => if c =? 47 then [] else c :: upToSlash s'
  end.

Definition invalidUrl : thrown := ErrorObject (lit "Invalid URL").

Definition simple_hostname (u : jsstring) : result jsstring :=
  match afterScheme u with
  | Some rest =>
      match upToSlash rest with
      | [] => Throw invalidUrl
      | host => Ok host
      end
  | None => Throw invalidUrl
  end.

(** Resolves a path that starts with a slash against the origin of
    [base]. *)
Definition simple_href (location base : jsstring) : result jsstring :=
  match afterScheme base with
  | Some rest =>
      match upToSlash rest with
      | [] => Throw invalidUrl
      | host =>
          if startsWith location (lit "/") &&
             negb (startsWith location (lit "//"))
          then Ok (take (length base - length rest) base ++ host ++ location)
          else Throw invalidUrl
      end
  | None => Throw invalidUrl
  end.

(** Inputs on which the statements are run. *)

Definition shop : jsstring := lit "https://shop.example".

(** A redirect to an absolute URL on another host. *)
Definition movedTo (target : string) : result Response :=
  Ok (response 302 [(lit "location", lit target)] []).

(** A store that sends the login page to the hosted login. *)
Definition hostedLogin : World :=
  mkWorld [Ok (response 302
                 [(lit "location", lit "https://shop.example/auth/login")]
                 [])] [].

(** A store that serves a legacy login form. *)
Definition legacyForm : World :=
  mkWorld [Ok (response 200 [(lit "x-shopid", lit "1")]
                 (lit "<form action=" ++ quoted "/account/login" ++
                  lit "><input name=" ++ quoted "customer[password]" ++
                  lit " type=" ++ quoted "password" ++ lit "></form>"))] [].

(** A site that answers every request with a 404. *)
Definition nowhere (u : jsstring) : result Response :=
  Ok (response 404 [] []).

(** ** Vocabulary for further statements about the probe *)

(** A header of the response that marks the platform: [x-powered-by] with
    [Shopify] in it, a non-empty [x-shopid], or [server-timing] with
    [shopify] or [pageType] in it. *)
Definition platformFingerprint (resp : Response) : Prop :=
  (exists v, headers_get resp (lit "x-powered-by") = Some v /\
             contains v (lit "Shopify")) \/
  (exists v, headers_get resp (lit "x-shopid") = Some v /\ v <> []) \/
  (exists v, headers_get resp (lit "server-timing") = Some v /\
             (contains v (lit "shopify") \/ contains v (lit "pageType"))).

(** The response has a status in [300, 400) and a non-empty Location. *)
Definition redirects (resp : Response) : Prop :=
  300 <= resp_status resp < 400 /\
  exists location,
    headers_get resp (lit "location") = Some location /\ location <> [].

(** ** The callers: the page, the results table, the file input and the
       command-line tool *)

(** The replacement of [/^https?:\/\//] by the empty string
    ([results-table.tsx]). *)
Definition stripScheme (u : jsstring) : jsstring :=
  if startsWith u (lit "http://") then drop 7 u
  else if startsWith u (lit "https://") then drop 8 u
  else u.

(** The key of a pending row ([page.tsx]): the entry trimmed, prefixed
    unless it starts with [http], without trailing slashes. *)
Definition pendingKey (u : jsstring) : jsstring :=
  let normalized :=
    if startsWith (trim u) (lit "http") then trim u
    else lit "https://" ++ trim u in
  stripTrailingSlashes normalized.

(** The entries the page submits: the pieces of the text, trimmed, the
    empty ones left out ([filter(Boolean)]). *)
Definition submittedUrls (input : jsstring) : list jsstring :=
  List.filter truthy (List.map trim (splitSeparators input)).

(** [handleFile] of the file input: the text of the file goes after the
    current value, on a new line. *)
Definition appendFile (value text : jsstring) : jsstring :=
  if truthy value then value ++ [10] ++ text else text.

(** [acc[t] = (acc[t] || 0) + 1] on an object whose keys are account
    types; the entries are kept in insertion order, as [Object.entries]
    lists them. *)
Fixpoint bump (t : AccountType) (acc : list (AccountType * nat))
  : list (AccountType * nat) :=
  match acc with
  | [] => [(t, 1%nat)]
  | (k, n) :: rest =>
      if decide (k = t)
      then (k, (if (n =? 0)%nat then 0 else n) + 1)%nat :: rest
      else (k, n) :: bump t rest
  end.

(** [acc[t] || 0]: the count of [t] in an object of counts. *)
Fixpoint countOf (t : AccountType) (acc : list (AccountType * nat)) : nat :=
  match acc with
  | [] => 0%nat
  | (k, n) :: rest => if decide (k = t) then n else countOf t rest
  end.

(** The counts of the results table and of the summary of the tool. *)
Definition tally (results : list CheckResult) : list (AccountType * nat) :=
  fold_left (fun acc r => bump (type r) acc) results [].

(** The notes cell of a row: [r.note || r.error || dash]. *)
Definition notesCell (r : CheckResult) : jsstring :=
  if truthy (or_empty (note r)) then or_empty (note r)
  else if truthy (or_empty (error r)) then or_empty (error r)
  else emDash.

(** The state of the page that [handleCheck] updates. *)
Record PageState : Type := mkPageState {
  loading : bool;
  results : list CheckResult;
  pending : list jsstring;
}.

(** How the reads of the response body end: [done], or an exception. *)
Inductive ReadEnd : Type :=
  | Done
  | ReadFailed (e : thrown).

Section Page.

(** [JSON.parse] of a line, with the cast to [CheckResult]. *)
Variable parse : jsstring -> result CheckResult.

(** The two updates made when a result arrives in the loop. *)
Definition onResult (r : CheckResult) (st : PageState) : PageState :=
  {| loading := loading st;
     results := results st ++ [r];
     pending :=
       List.filter (fun u => negb (bool_decide (pendingKey u = url r)))
                   (pending st) |}.

(** [for (const line of lines)]: blank lines are skipped; a line that
    does not parse throws, the updates made before it staying. *)
Fixpoint forLines (lines : list jsstring) (st : PageState)
  : PageState * result unit :=
  match lines with
  | [] => (st, Ok tt)
  | line :: lines' =>
      if negb (truthy (trim line)) then forLines lines' st
      else
        match parse line with
        | Ok r => forLines lines' (onResult r st)
        | Throw e => (st, Throw e)
        end
  end.

(** [lines.pop() || s] with [s] the empty string, and what is left of
    [lines]. *)
Definition popLine (lines : list jsstring) : jsstring * list jsstring :=
  (or_empty (list.last lines), removelast lines).

(** The [while] loop over the chunks read (already decoded), then what
    follows it in the [try] block. *)
Fixpoint readLoop (chunks : list jsstring) (ending : ReadEnd)
  (buffer : jsstring) (st : PageState) : PageState * result unit :=
  match chunks with
  | [] =>
      match ending with
      | ReadFailed e => (st, Throw e)
      | Done =>
          if truthy (trim buffer) then
            match parse buffer with
            | Ok r =>
                ({| loading := loading st; results := results st ++ [r];
                    pending := [] |}, Ok tt)
            | Throw e => (st, Throw e)
            end
          else (st, Ok tt)
      end
  | value :: chunks' =>
      let buffer := buffer ++ value in
      let lines := splitLines buffer in
      let (buffer, lines) := popLine lines in
      match forLines lines st with
      | (st', Ok _) => readLoop chunks' ending buffer st'
      | (st', Throw e) => (st', Throw e)
      end
  end.

(** What the page gets back from its request to the endpoint. *)
Inductive Fetched : Type :=
  | FetchThrew (e : thrown)
  | NotOk
  | Body (chunks : list jsstring) (ending : ReadEnd).

(** [handleCheck]: the state of the page when it is over.  The [catch]
    clause swallows the exception; [finally] clears the pending rows. *)
Definition handleCheck (input : jsstring) (st : PageState)
  (reply : Fetched) : PageState :=
  let urls := submittedUrls input in
  if (length urls =? 0)%nat then st
  else
    let st := {| loading := true; results := []; pending := urls |} in
    let st' :=
      match reply with
      | FetchThrew _ => st
      | NotOk => st
      | Body chunks ending => fst (readLoop chunks ending [] st)
      end in
    {| loading := false; results := results st'; pending := [] |}.

End Page.

(** *** The command-line tool ([src/check.js]) *)

Definition typeLabels (t : AccountType) : jsstring :=
  match t with
  | New => lit "NEW Customer Accounts"
  | Legacy => lit "LEGACY Customer Accounts"
  | PasswordProtected => lit "PASSWORD PROTECTED"
  | NotShopify => lit "NOT A SHOPIFY STORE"
  | Unknown => lit "UNKNOWN"
  | Error => lit "ERROR"
  end.

(** The icons, in UTF-16: the three beyond U+FFFF are surrogate pairs. *)
Definition typeIcons (t : AccountType) : jsstring :=
  match t with
  | New => [10024]
  | Legacy => [55357; 56615]
  | PasswordProtected => [55357; 56594]
  | NotShopify => [55357; 57003]
  | Unknown => [10067]
  | Error => [10060]
  end.

(** The line printed for a result. *)
Definition resultLine (r : CheckResult) : jsstring :=
  let line :=
    typeIcons (type r) ++ lit " " ++ url r ++ lit " " ++ emDash ++ lit " "
    ++ typeLabels (type r) in
  let line :=
    if truthy (or_empty (note r))
    then line ++ lit " (" ++ or_empty (note r) ++ lit ")" else line in
  if truthy (or_empty (error r))
  then line ++ lit " (" ++ or_empty (error r) ++ lit ")" else line.

(** A line of the summary. *)
Definition summaryLine (entry : AccountType * nat) : jsstring :=
  lit "  " ++ typeLabels (fst entry) ++ lit ": "
  ++ ofNumber (N.of_nat (snd entry)).

Definition usage : jsstring :=
  lit "Usage:" ++ [10] ++
  lit "  node check.js <store-url>              Check a single store" ++ [10] ++
  lit "  node check.js <url1> <url2> ...        Check multiple stores" ++ [10] ++
  lit "  node check.js -f <file>                Check stores from a file (one URL per line)" ++ [10] ++
  [10] ++
  lit "Examples:" ++ [10] ++
  lit "  node check.js mystore.myshopify.com" ++ [10] ++
  lit "  node check.js https://example-store.com" ++ [10] ++
  lit "  node check.js -f stores.txt".

(** The URLs gathered from the file, split on single newlines, then from
    the positional arguments. *)
Definition gatherUrls (content : option jsstring)
  (positionals : list jsstring) : list jsstring :=
  match content with
  | Some content => omap normalizeUrl (splitLines content)
  | None => []
  end ++ omap normalizeUrl positionals.

(** How a run of the tool ends: with an exit code (0 when the script runs
    to its end) and what it printed, or with an exception nothing
    catches. *)
Inductive Ran : Type :=
  | Exited (code : N) (stdout stderr : list jsstring)
  | Uncaught (e : thrown) (stdout : list jsstring).

Section Tool.

Variable url_hostname : jsstring -> result jsstring.
Variable url_href : jsstring -> jsstring -> result jsstring.
Context {Transport : Type}.
Variable transport_fetch :
  Transport -> Request -> Transport * result Response.
Variable view : nat -> @World Transport.

(** The tool has its own copy of [checkStore] (lines 47-146), the same
    but for the [catch] clause, whose [error] is [err.message]: absent
    when what was thrown is not an [Error]. *)
Definition on_exception_js (storeUrl : jsstring) (err : thrown)
  : @M Transport CheckResult :=
  ret {| url := storeUrl; type := Error; status := None; redirect := None;
         note := None;
         error := match err with
                  | ErrorObject message => Some message
                  | NonError _ => None
                  end |}.

Definition checkStoreJs (storeUrl : jsstring) : @M Transport CheckResult :=
  let loginUrl := storeUrl ++ lit "/account/login" in
  try_catch (redirectLoop url_hostname url_href transport_fetch
               maxRedirects storeUrl loginUrl 0)
            (on_exception_js storeUrl).

(** As for the endpoint, the [k]-th call talks to the world [view k]. *)
Definition settledJs (k : nat) (storeUrl : jsstring) : result CheckResult :=
  snd (checkStoreJs storeUrl (view k)).

(** The loop over the batches of five (lines 254-258); [fuel] as in
    [streamFrom]. *)
Fixpoint checkFrom (fuel i : nat) (urls : list jsstring)
  (results : list CheckResult) : result (list CheckResult) :=
  match fuel with
  | O => Ok results
  | S fuel' =>
      if (i <? length urls)%nat then
        let batch := slice urls i (i + 5) in
        try batchResults <~
          promiseAll (imap (fun j u => settledJs (i + j) u) batch) in
        checkFrom fuel' (i + 5) urls (results ++ batchResults)
      else Ok results
  end.

(** The script.  [help] is the flag; [file] is [None] when no file name
    was given and else what reading the file gives. *)
Definition main (help : bool) (file : option (result jsstring))
  (positionals : list jsstring) : Ran :=
  if help ||
     ((length positionals =? 0)%nat && negb (bool_decide (is_Some file)))
  then Exited 0 [usage] []
  else
    match file with
    | Some (Throw e) => Uncaught e []
    | _ =>
        let content :=
          match file with Some (Ok content) => Some content | _ => None end in
        let urls := gatherUrls content positionals in
        if (length urls =? 0)%nat
        then Exited 1 [] [lit "No valid URLs provided."]
        else
          let header :=
            lit "Checking " ++ ofNumber (N.of_nat (length urls))
            ++ lit " store(s)..." ++ [10] in
          match checkFrom (length urls) 0 urls [] with
          | Throw e => Uncaught e [header]
          | Ok results =>
              Exited 0
                ([header] ++ List.map resultLine results
                 ++ [[10] ++ lit "--- Summary ---"]
                 ++ List.map summaryLine (tally results))
                []
          end
    end.

End Tool.

(** * Properties of the string primitives *)

Example startsWith_ex : startsWith (lit "https://a.com") (lit "http") = true.
Proof. reflexivity. Qed.
Example includes_ex :
  includes (lit "x/auth/login?y") (lit "/auth/login") = true.
Proof. reflexivity. Qed.
Example split_ex :
  splitSeparators (lit ",a,,b" ++ [10] ++ lit "c,") =
  [[]; lit "a"; lit "b"; lit "c"; []].
Proof. reflexivity. Qed.
Example split_empty_ex : splitSeparators [] = [[]].
Proof. reflexivity. Qed.
Example trim_ex : trim (lit "  a b  ") = lit "a b".
Proof. reflexivity. Qed.
Example strip_ex :
  stripTrailingSlashes (lit "https://a.com/x//") = lit "https://a.com/x".
Proof. reflexivity. Qed.
Example ofNumber_ex : ofNumber 406 = lit "406".
Proof. reflexivity. Qed.


Lemma startsWith_prefix s p :
  startsWith s p = true <-> exists t, s = p ++ t.
Proof.
  revert s. induction p as [|c p IH]; intros s; simpl.
  - split; [intros _; now exists s | reflexivity].
  - destruct s as [|d s]; simpl.
    + split; [discriminate | intros [t Ht]; discriminate].
    + rewrite andb_true_iff, N.eqb_eq, IH. split.
      * intros [-> [t ->]]. eauto.
      * intros [t Ht]. injection Ht as -> ->. eauto.
Qed.

Lemma includes_contains s p : includes s p = true <-> contains s p.
Proof.
  unfold contains. induction s as [|d s IH]; simpl.
  - rewrite orb_false_r, startsWith_prefix. split.
    + intros [t Ht]. exists [], t. exact Ht.
    + intros [a [b Hab]]. destruct a; [eauto | discriminate].
  - rewrite orb_true_iff, startsWith_prefix, IH. split.
    + intros [[t Ht] | [a [b Hab]]].
      * exists [], t. exact Ht.
      * exists (d :: a), b. simpl. now rewrite Hab.
    + intros [a [b Hab]]. destruct a as [|x a]; simpl in Hab.
      * left. eauto.
      * right. injection Hab as _ ->. eauto.
Qed.

Lemma not_includes_contains s p : includes s p = false <-> ~ contains s p.
Proof.
  rewrite <- includes_contains. destruct (includes s p); split; congruence.
Qed.

Lemma some_included_containsAny patterns s :
  some_included patterns s = true <-> containsAny patterns s.
Proof.
  unfold some_included, containsAny. rewrite existsb_exists.
  split; intros [p [Hin Hp]]; exists p; split; auto;
    now apply includes_contains.
Qed.

Lemma not_some_included_containsAny patterns s :
  some_included patterns s = false <-> ~ containsAny patterns s.
Proof.
  rewrite <- some_included_containsAny.
  destruct (some_included patterns s); split; congruence.
Qed.

Lemma truthy_nonempty s : truthy s = true <-> s <> [].
Proof. destruct s; simpl; split; congruence. Qed.

(** A prefix free of the dropped code units survives [dropWhileEnd]. *)
Lemma dropWhileEnd_keeps_prefix p a s :
  Forall (fun c => p c = false) a ->
  dropWhileEnd p (a ++ s) = a ++ dropWhileEnd p s.
Proof.
  induction 1 as [|c a Hc Ha IH]; simpl; [reflexivity|].
  rewrite IH. destruct a as [|c' a]; simpl.
  - destruct (dropWhileEnd p s); [now rewrite Hc | reflexivity].
  - reflexivity.
Qed.

Lemma stripTrailingSlashes_http s :
  startsWith s (lit "http") = true ->
  startsWith (stripTrailingSlashes s) (lit "http") = true.
Proof.
  rewrite !startsWith_prefix. intros [t ->]. unfold stripTrailingSlashes.
  rewrite dropWhileEnd_keeps_prefix; [eauto|].
  repeat constructor.
Qed.

(** * Body classification *)

Ltac reflect_bool b H :=
  let E := fresh "E" in
  destruct b eqn:E;
  [ apply H in E | apply not_true_iff_false in E; rewrite H in E ].

Lemma passwordField_reflect body :
  includes body (lit "type=" ++ quoted "password") &&
  includes body (lit "customer") = true <-> HasPasswordField body.
Proof.
  unfold HasPasswordField. now rewrite andb_true_iff, !includes_contains.
Qed.

Lemma passwordPage_reflect body :
  includes body (lit "password-page") ||
  includes body (lit "storefront-password") = true <->
  contains body (lit "password-page") \/
  contains body (lit "storefront-password").
Proof. now rewrite orb_true_iff, !includes_contains. Qed.

Lemma noShopifyWord_reflect body :
  negb (includes body (lit "Shopify")) &&
  negb (includes body (lit "shopify")) = true <->
  ~ contains body (lit "Shopify") /\ ~ contains body (lit "shopify").
Proof.
  now rewrite andb_true_iff, !negb_true_iff, !not_includes_contains.
Qed.

(** C2: [classifyFromBody] applies its seven rules in order, the first
    that matches deciding the type; the rules are case-sensitive substring
    checks.  In particular a body with a new-account signal, the password
    field and a legacy signal is [Legacy], and the same without a legacy
    signal is [New]. *)
Theorem classifyFromBody_first_match (storeUrl body : jsstring) (st : N) :
  let t := type (classifyFromBody storeUrl body st) in
  let rule1 := HasNewSignal body /\ ~ HasPasswordField body in
  let rule2 := HasPasswordField body /\ HasLegacySignal body in
  let rule3 := HasNewSignal body in
  let rule4 := HasPasswordField body in
  let rule5 := contains body (lit "password-page") \/
               contains body (lit "storefront-password") in
  let rule6 := ~ contains body (lit "Shopify") /\
               ~ contains body (lit "shopify") in
  (rule1 -> t = New) /\
  (~ rule1 -> rule2 -> t = Legacy) /\
  (~ rule1 -> ~ rule2 -> rule3 -> t = New) /\
  (~ rule1 -> ~ rule2 -> ~ rule3 -> rule4 -> t = Legacy) /\
  (~ rule1 -> ~ rule2 -> ~ rule3 -> ~ rule4 -> rule5 ->
   t = PasswordProtected) /\
  (~ rule1 -> ~ rule2 -> ~ rule3 -> ~ rule4 -> ~ rule5 -> rule6 ->
   t = NotShopify) /\
  (~ rule1 -> ~ rule2 -> ~ rule3 -> ~ rule4 -> ~ rule5 -> ~ rule6 ->
   t = Unknown) /\
  (HasNewSignal body -> HasPasswordField body -> HasLegacySignal body ->
   t = Legacy) /\
  (HasNewSignal body -> HasPasswordField body -> ~ HasLegacySignal body ->
   t = New).
Proof.
  unfold classifyFromBody.
  reflect_bool (some_included newAccountSignals body)
               (some_included_containsAny newAccountSignals body);
  reflect_bool (some_included legacySignals body)
               (some_included_containsAny legacySignals body);
  reflect_bool (includes body (lit "type=" ++ quoted "password") &&
                includes body (lit "customer"))
               (passwordField_reflect body);
  reflect_bool (includes body (lit "password-page") ||
                includes body (lit "storefront-password"))
               (passwordPage_reflect body);
  reflect_bool (negb (includes body (lit "Shopify")) &&
                negb (includes body (lit "shopify")))
               (noShopifyWord_reflect body);
  cbn [andb orb negb type]; cbv zeta; unfold HasNewSignal, HasLegacySignal;
  repeat split; intros; solve [reflexivity | tauto].
Qed.

(** * URL normalisation *)

Lemma normalizeUrl_None piece :
  normalizeUrl piece = None <-> blankOrComment piece.
Proof.
  unfold normalizeUrl, blankOrComment.
  destruct (trim piece) as [|c t]; cbn [truthy negb].
  - split; auto.
  - destruct (startsWith (c :: t) (lit "#")).
    + split; auto.
    + split; [discriminate | intros [?|?]; discriminate].
Qed.

Lemma normalizeUrl_Some piece u :
  normalizeUrl piece = Some u ->
  u = stripTrailingSlashes
        (if startsWith (trim piece) (lit "http") then trim piece
         else lit "https://" ++ trim piece) /\
  u <> [] /\ startsWith u (lit "http") = true.
Proof.
  unfold normalizeUrl.
  destruct (truthy (trim piece)); cbn [negb]; [|discriminate].
  destruct (startsWith (trim piece) (lit "#")); [discriminate|].
  destruct (startsWith (trim piece) (lit "http")) eqn:Hhttp; cbn [negb];
    intros E0; apply (inj Some) in E0; subst u.
  - assert (H := stripTrailingSlashes_http _ Hhttp).
    split; [reflexivity|]. split; [|exact H].
    intros E. rewrite E in H. discriminate.
  - assert (H : startsWith (stripTrailingSlashes (lit "https://" ++ trim piece))
                  (lit "http") = true)
      by (apply stripTrailingSlashes_http; reflexivity).
    split; [reflexivity|]. split; [|exact H].
    intros E. rewrite E in H. discriminate.
Qed.

Lemma splitFrom_plain cur piece tail :
  Forall (fun c => isSeparator c = false) piece ->
  splitFrom false cur (piece ++ tail) = splitFrom false (cur ++ piece) tail.
Proof.
  intros H. revert cur. induction H as [|c piece Hc _ IH]; intros cur.
  - now rewrite app_nil_r.
  - simpl. rewrite Hc, IH. now rewrite <- app_assoc.
Qed.

Lemma splitFrom_in_run run tail :
  Forall (fun c => isSeparator c = true) run ->
  splitFrom true [] (run ++ tail) = splitFrom true [] tail.
Proof.
  induction 1 as [|c run Hc _ IH]; simpl; [reflexivity|]. now rewrite Hc.
Qed.

Lemma splitFrom_run cur run tail :
  separatorRun run ->
  splitFrom false cur (run ++ tail) = cur :: splitFrom true [] tail.
Proof.
  intros [Hne Hall]. destruct Hall as [|c run Hc Hall]; [congruence|].
  simpl. rewrite Hc. now rewrite splitFrom_in_run.
Qed.

Lemma splitFrom_trailing cur trailing :
  Forall (fun c => isSeparator c = true) trailing ->
  splitFrom false cur trailing =
  cur :: match trailing with [] => [] | _ :: _ => [[]] end.
Proof.
  intros H. destruct H as [|c run Hc Hall]; [reflexivity|].
  simpl. rewrite Hc. f_equal.
  rewrite <- (app_nil_r run). now rewrite splitFrom_in_run.
Qed.

Lemma splitFrom_joined cur rest trailing :
  Forall (fun rp => separatorRun (fst rp) /\ plainPiece (snd rp)) rest ->
  Forall (fun c => isSeparator c = true) trailing ->
  splitFrom false cur
    (concat (List.map (fun rp => fst rp ++ snd rp) rest) ++ trailing) =
  cur :: List.map snd rest ++
         match trailing with [] => [] | _ :: _ => [[]] end.
Proof.
  intros Hrest Htr. revert cur.
  induction Hrest as [|[run piece] rest' [Hrun [Hne Hplain]] _ IH];
    intros cur; simpl in *.
  - now apply splitFrom_trailing.
  - rewrite <- !app_assoc. rewrite splitFrom_run by assumption. f_equal.
    destruct Hplain as [|c piece' Hc Hplain]; [congruence|].
    simpl. rewrite Hc. rewrite splitFrom_plain by assumption.
    simpl. apply IH.
Qed.

(** The splitting of [parseUrls]: the pieces between the runs of newlines
    and commas, an empty piece standing for a run that ends the input. *)
Lemma splitSeparators_joinRuns first rest trailing :
  Forall (fun c => isSeparator c = false) first ->
  Forall (fun rp => separatorRun (fst rp) /\ plainPiece (snd rp)) rest ->
  Forall (fun c => isSeparator c = true) trailing ->
  splitSeparators (joinRuns first rest ++ trailing) =
  first :: List.map snd rest ++
           match trailing with [] => [] | _ :: _ => [[]] end.
Proof.
  intros Hfirst Hrest Htr. unfold splitSeparators, joinRuns.
  rewrite <- app_assoc, splitFrom_plain by assumption.
  now apply splitFrom_joined.
Qed.

Lemma parseUrls_all_dropped input :
  (forall piece, In piece (splitSeparators input) -> blankOrComment piece) ->
  parseUrls input = [].
Proof.
  unfold parseUrls. induction (splitSeparators input) as [|p ps IH];
    intros H; [reflexivity|].
  simpl. destruct (normalizeUrl p) eqn:E.
  - assert (Hp : normalizeUrl p = None)
      by (apply normalizeUrl_None, H; now left).
    congruence.
  - apply IH. intros q Hq. apply H. now right.
Qed.

(** C8, amended: [parseUrls] splits on runs of newlines and commas, trims
    each piece, drops the pieces that are then empty or start with [#],
    prefixes [https://] to the others unless they start with [http], and
    strips trailing slashes.  The output lists the kept pieces in input
    order, repetitions included; each element is non-empty and starts with
    [http]; and an input all of whose pieces are blank or comments gives
    the empty list. *)
Theorem parseUrls_normalizes (input : jsstring) :
  (forall piece, normalizeUrl piece = None <-> blankOrComment piece) /\
  (forall piece u, normalizeUrl piece = Some u ->
     u = stripTrailingSlashes
           (if startsWith (trim piece) (lit "http") then trim piece
            else lit "https://" ++ trim piece)) /\
  (forall first rest trailing,
     Forall (fun c => isSeparator c = false) first ->
     Forall (fun rp => separatorRun (fst rp) /\ plainPiece (snd rp)) rest ->
     Forall (fun c => isSeparator c = true) trailing ->
     input = joinRuns first rest ++ trailing ->
     parseUrls input = omap normalizeUrl (first :: List.map snd rest)) /\
  (forall u, In u (parseUrls input) ->
     u <> [] /\ startsWith u (lit "http") = true) /\
  ((forall piece, In piece (splitSeparators input) -> blankOrComment piece) ->
   parseUrls input = []).
Proof.
  split; [exact normalizeUrl_None|].
  split; [intros piece u H; now apply normalizeUrl_Some in H|].
  split; [|split].
  - intros first rest trailing Hf Hr Ht ->. unfold parseUrls.
    rewrite splitSeparators_joinRuns by assumption.
    rewrite app_comm_cons, omap_app.
    destruct trailing; simpl; now rewrite app_nil_r.
  - intros u Hu. apply list_elem_of_In in Hu. unfold parseUrls in Hu.
    apply list_elem_of_omap in Hu as [piece [_ Hpiece]].
    now apply normalizeUrl_Some in Hpiece.
  - apply parseUrls_all_dropped.
Qed.

(** C8 as stated fails: a comment line that holds a comma is split before
    the comment test, and what follows the comma is kept. *)
Lemma parseUrls_comment_with_comma :
  (forall line, In line (splitLines (lit "#a,b")) -> blankOrComment line) /\
  parseUrls (lit "#a,b") = [lit "https://b"].
Proof.
  split; [|reflexivity].
  intros line [<- | []]. right. reflexivity.
Qed.

(** * The probe *)

Lemma isNewAccountRedirect_signal location :
  isNewAccountRedirect location = true <-> hasRedirectSignal location.
Proof.
  unfold isNewAccountRedirect, some_included, hasRedirectSignal,
    NEW_ACCOUNT_REDIRECT_PATTERNS.
  cbn [existsb]. rewrite orb_false_r, !orb_true_iff, !includes_contains.
  tauto.
Qed.

Lemma signal_nonempty location : hasRedirectSignal location -> location <> [].
Proof.
  intros H ->. apply isNewAccountRedirect_signal in H. discriminate.
Qed.

Section CheckerTheory.

Variable url_hostname : jsstring -> result jsstring.
Variable url_href : jsstring -> jsstring -> result jsstring.
Context {Transport : Type}.
Variable transport_fetch :
  Transport -> Request -> Transport * result Response.

Local Abbreviation World := (@World Transport).
Local Abbreviation fetch := (fetch transport_fetch).
Local Abbreviation on_response := (on_response url_hostname url_href).
Local Abbreviation redirectLoop :=
  (redirectLoop url_hostname url_href transport_fetch).
Local Abbreviation checkStore :=
  (checkStore url_hostname url_href transport_fetch).
Local Abbreviation redirectsTo := (redirectsTo url_href).
Local Abbreviation follows := (follows url_href transport_fetch).

(** The Location test of the loop, in the two ways it can go. *)
Lemma location_test_signal resp location :
  headers_get resp (lit "location") = Some location ->
  hasRedirectSignal location ->
  truthy (or_empty (headers_get resp (lit "location"))) &&
  isNewAccountRedirect (or_empty (headers_get resp (lit "location"))) = true.
Proof.
  intros -> H. cbn [or_empty]. apply andb_true_iff. split.
  - now apply truthy_nonempty, signal_nonempty.
  - now apply isNewAccountRedirect_signal.
Qed.

Lemma location_test_none resp :
  noRedirectSignal resp ->
  truthy (or_empty (headers_get resp (lit "location"))) &&
  isNewAccountRedirect (or_empty (headers_get resp (lit "location"))) = false.
Proof.
  intros H. destruct (headers_get resp (lit "location")) as [l|] eqn:E;
    cbn [or_empty]; [|reflexivity].
  apply andb_false_iff. right. apply not_true_iff_false.
  rewrite isNewAccountRedirect_signal. now apply H.
Qed.

Lemma location_test_false resp :
  truthy (or_empty (headers_get resp (lit "location"))) &&
  isNewAccountRedirect (or_empty (headers_get resp (lit "location"))) = false ->
  noRedirectSignal resp.
Proof.
  intros H l E Hl. rewrite (location_test_signal resp l E Hl) in H.
  discriminate.
Qed.

Lemma on_response_signal storeUrl cur resp location :
  headers_get resp (lit "location") = Some location ->
  hasRedirectSignal location ->
  on_response storeUrl cur resp =
  Ok (Return {| url := storeUrl; type := New;
                status := Some (resp_status resp);
                redirect := Some location; note := None; error := None |}).
Proof.
  intros E H. unfold on_response.
  rewrite (location_test_signal resp location E H). now rewrite E.
Qed.

Lemma on_response_redirect storeUrl cur resp next :
  redirectsTo cur resp next ->
  on_response storeUrl cur resp = Ok (Continue next).
Proof.
  intros [location [Hlo Hhi] Hloc Hne Hns Hnext]. unfold on_response.
  rewrite Hloc. cbn [or_empty].
  apply truthy_nonempty in Hne. rewrite Hne.
  assert (Hsig : isNewAccountRedirect location = false)
    by (apply not_true_iff_false; now rewrite isNewAccountRedirect_signal).
  rewrite Hsig. cbn [andb].
  apply N.leb_le in Hlo. apply N.ltb_lt in Hhi. rewrite Hlo, Hhi.
  cbn [andb]. now rewrite Hnext.
Qed.

Lemma on_response_continue storeUrl cur resp next :
  on_response storeUrl cur resp = Ok (Continue next) ->
  redirectsTo cur resp next.
Proof.
  unfold on_response.
  destruct (truthy _ && isNewAccountRedirect _) eqn:Htest; [discriminate|].
  destruct ((300 <=? resp_status resp) && (resp_status resp <? 400) &&
            truthy (or_empty (headers_get resp (lit "location")))) eqn:H3xx.
  - apply andb_true_iff in H3xx as [Hrange Htruthy].
    apply andb_true_iff in Hrange as [Hlo Hhi].
    apply N.leb_le in Hlo. apply N.ltb_lt in Hhi.
    destruct (headers_get resp (lit "location")) as [location|] eqn:Hloc;
      cbn [or_empty] in *; [|discriminate].
    rewrite Htruthy in Htest. cbn [andb] in Htest.
    intros H. apply (RedirectsTo url_href cur resp next location); auto.
    + now apply truthy_nonempty.
    + rewrite <- isNewAccountRedirect_signal. congruence.
    + destruct (if startsWith location (lit "http") then Ok location
                else url_href location cur); cbn [bindR] in H; congruence.
  - intros H.
    repeat match type of H with
           | context [bindR ?m _] => destruct m; cbn [bindR] in H
           | context [if ?b then _ else _] => destruct b
           | context [match ?x with _ => _ end] => destruct x
           end; discriminate.
Qed.

Lemma on_response_return storeUrl cur resp r :
  on_response storeUrl cur resp = Ok (Return r) ->
  describes storeUrl resp r.
Proof.
  unfold on_response.
  destruct (truthy _ && isNewAccountRedirect _) eqn:Htest.
  - intros [= <-]. apply andb_true_iff in Htest as [_ Hsig].
    destruct (headers_get resp (lit "location")) as [location|] eqn:Hloc;
      cbn [or_empty] in *; [|discriminate].
    apply isNewAccountRedirect_signal in Hsig.
    unfold describes; cbn [url type status redirect note error].
    rewrite Hloc. repeat split; auto; discriminate.
  - apply location_test_false in Htest. intros H.
    repeat match type of H with
           | context [if ?b then _ else _] => destruct b
           | context [bindR (url_hostname ?u) _] =>
               destruct (url_hostname u); cbn [bindR] in H
           | context [bindR (url_href ?l ?u) _] =>
               destruct (url_href l u); cbn [bindR] in H
           | context [bindR (resp_text ?x) _] =>
               destruct (resp_text x); cbn [bindR] in H
           | context [bindR (Ok _) _] => cbn [bindR] in H
           | context [bindR (Throw _) _] => cbn [bindR] in H
           end; try discriminate;
      injection H as <-; unfold classifyFromBody;
      repeat match goal with
             | |- context [if ?b then _ else _] => destruct b
             end;
      unfold describes; cbn [url type status redirect note error];
      repeat split; auto; discriminate.
Qed.

Lemma fetch_log req (w w1 : World) o :
  fetch req w = (w1, o) -> log w1 = log w ++ [mkEvent req o].
Proof.
  unfold fetch. destruct (transport_fetch (transport w) req) as [t' o'].
  intros E. assert (Hw : w1 = mkWorld t' (log w ++ [mkEvent req o']))
    by congruence.
  assert (Ho : o = o') by congruence. now subst.
Qed.

(** Followed redirects are iterations of the loop. *)
Lemma follows_loop storeUrl i cur last (w : World) cur' last' w' :
  follows i cur last w cur' last' w' ->
  forall n,
    redirectLoop (i + n) storeUrl cur last w =
    redirectLoop n storeUrl cur' last' w'.
Proof.
  induction 1 as [|i cur last w resp w1 next cur' last' w' Hf Hr _ IH];
    intros n; [reflexivity|].
  cbn [Nat.add redirectLoop]. unfold bind at 1. rewrite Hf.
  unfold bind, lift. rewrite (on_response_redirect storeUrl _ _ _ Hr).
  apply IH.
Qed.

Lemma follows_log i cur last (w : World) cur' last' w' :
  follows i cur last w cur' last' w' ->
  exists evs, log w' = log w ++ evs /\ length evs = i /\
              Forall isProbeRequest evs.
Proof.
  induction 1 as [|i cur last w resp w1 next cur' last' w' Hf Hr _ IH].
  - exists []. now rewrite app_nil_r.
  - destruct IH as [evs [Hlog [Hlen Hall]]]. apply fetch_log in Hf.
    exists (mkEvent (request cur) (Ok resp) :: evs). split; [|split].
    + rewrite Hlog, Hf, <- app_assoc. reflexivity.
    + simpl. now rewrite Hlen.
    + constructor; [now exists cur | assumption].
Qed.

(** The last status of a non-empty run of followed redirects is the status
    of the last response received. *)
Lemma follows_last i cur last (w : World) cur' last' w' :
  follows (S i) cur last w cur' last' w' ->
  exists req resp, list.last (log w') = Some (mkEvent req (Ok resp)) /\
                   last' = resp_status resp.
Proof.
  revert cur last w. induction i as [|i IH]; intros cur last w H;
    inversion H as [|? ? ? ? resp w1 next ? ? ? Hf Hr Hrest]; subst.
  - inversion Hrest; subst. apply fetch_log in Hf.
    exists (request cur), resp. rewrite Hf, last_snoc. auto.
  - now apply IH in Hrest.
Qed.

(** The shape of every run of the loop. *)
Lemma loop_settles (storeUrl : jsstring) n :
  forall cur last (w w' : World) res,
    redirectLoop n storeUrl cur last w = (w', res) ->
    exists evs,
      log w' = log w ++ evs /\ (length evs <= n)%nat /\
      Forall isProbeRequest evs /\
      (forall k ev e, evs !! k = Some ev -> ev_outcome ev = Throw e ->
                      S k = length evs /\ res = Throw e) /\
      (forall r, res = Ok r ->
                 match list.last evs with
                 | Some ev => exists resp, ev_outcome ev = Ok resp /\
                                           describes storeUrl resp r
                 | None => n = 0%nat
                 end).
Proof.
  induction n as [|n IH]; intros cur last w w' res H.
  - cbn [redirectLoop] in H. unfold ret in H.
    assert (w' = w) by congruence. subst w'.
    exists []. split; [now rewrite app_nil_r|]. split; [simpl; lia|].
    split; [constructor|].
    split; [intros k ev e Hk; discriminate | reflexivity].
  - cbn [redirectLoop] in H. unfold bind at 1 in H.
    destruct (fetch (request cur) w) as [w1 o] eqn:Hf.
    assert (Hlog := fetch_log _ _ _ _ Hf).
    assert (Hreq : isProbeRequest (mkEvent (request cur) o))
      by now exists cur.
    destruct o as [resp|e].
    + unfold bind, lift in H.
      destruct (on_response storeUrl cur resp) as [[r|next]|e] eqn:Hr.
      * unfold ret in H. assert (w' = w1) by congruence.
        assert (res = Ok r) by congruence. subst w' res.
        exists [mkEvent (request cur) (Ok resp)].
        split; [assumption|]. split; [simpl; lia|].
        split; [now constructor|]. split.
        -- intros [|k] ev e Hk He; cbn in Hk; [|discriminate].
           assert (ev = mkEvent (request cur) (Ok resp)) by congruence.
           subst ev. discriminate.
        -- intros r' Hr'. assert (r' = r) by congruence. subst r'.
           cbn. exists resp. split; [reflexivity|].
           now apply on_response_return in Hr.
      * destruct (IH _ _ _ _ _ H) as [evs [Hl [Hlen [Hall [Hthrow Hok]]]]].
        exists (mkEvent (request cur) (Ok resp) :: evs).
        split; [rewrite Hl, Hlog, <- app_assoc; reflexivity|].
        split; [simpl; lia|]. split; [now constructor|]. split.
        -- intros [|k] ev e Hk He; cbn in Hk.
           ++ assert (ev = mkEvent (request cur) (Ok resp)) by congruence.
              subst ev. discriminate.
           ++ destruct (Hthrow k ev e Hk He) as [Hlast Hres].
              split; [simpl; lia | assumption].
        -- intros r Hres. specialize (Hok r Hres).
           destruct evs as [|ev' evs].
           ++ cbn in Hok. subst n res. cbn [redirectLoop] in H.
              unfold ret in H. injection H as _ Hr'.
              cbn. exists resp. split; [reflexivity|].
              apply on_response_continue in Hr.
              destruct Hr as [location _ Hloc _ Hns _].
              subst r. unfold describes.
              cbn [url type status redirect note error].
              repeat split; auto; try discriminate.
              intros l Hl'. congruence.
           ++ change (list.last (mkEvent (request cur) (Ok resp) :: ev' :: evs))
                with (list.last (ev' :: evs)).
              destruct (list.last (ev' :: evs)) eqn:El; [exact Hok|].
              apply last_None in El. discriminate.
      * assert (w' = w1) by congruence.
        assert (res = Throw e) by congruence. subst w' res.
        exists [mkEvent (request cur) (Ok resp)].
        split; [assumption|]. split; [simpl; lia|].
        split; [now constructor|]. split.
        -- intros [|k] ev e' Hk He; cbn in Hk; [|discriminate].
           assert (ev = mkEvent (request cur) (Ok resp)) by congruence.
           subst ev. discriminate.
        -- discriminate.
    + assert (w' = w1) by congruence.
      assert (res = Throw e) by congruence. subst w' res.
      exists [mkEvent (request cur) (Throw e)].
      split; [assumption|]. split; [simpl; lia|].
      split; [now constructor|]. split.
      * intros [|k] ev e' Hk He; cbn in Hk; [|discriminate].
        assert (ev = mkEvent (request cur) (Throw e)) by congruence.
        subst ev. cbn in He. split; [reflexivity | congruence].
      * discriminate.
Qed.

(** The shape of every run of [checkStore]: it returns, after one to six
    requests; a failed request is the last one; the result either
    describes the last response or reports what the loop threw. *)
Lemma checkStore_settles (storeUrl : jsstring) (w : World) :
  exists w' r evs,
    checkStore storeUrl w = (w', Ok r) /\
    log w' = log w ++ evs /\ (length evs <= 6)%nat /\
    Forall isProbeRequest evs /\
    (forall k ev e, evs !! k = Some ev -> ev_outcome ev = Throw e ->
                    S k = length evs /\ reports storeUrl e r) /\
    ((exists ev resp, list.last evs = Some ev /\ ev_outcome ev = Ok resp /\
                      describes storeUrl resp r) \/
     (exists e,
        redirectLoop maxRedirects storeUrl (storeUrl ++ lit "/account/login")
          0 w = (w', Throw e) /\
        reports storeUrl e r)).
Proof.
  unfold checkStore, try_catch.
  destruct (redirectLoop maxRedirects storeUrl
              (storeUrl ++ lit "/account/login") 0 w) as [w' res] eqn:H.
  destruct (loop_settles _ _ _ _ _ _ _ H)
    as [evs [Hlog [Hlen [Hall [Hthrow Hok]]]]].
  destruct res as [r|e].
  - exists w', r, evs. repeat (split; [assumption || reflexivity|]). split.
    + intros k ev e Hk He. destruct (Hthrow k ev e Hk He). discriminate.
    + left. specialize (Hok r eq_refl).
      destruct (list.last evs) as [ev|]; [|discriminate].
      destruct Hok as [resp [Ho Hd]]. eauto.
  - unfold on_exception, ret. eexists w', _, evs.
    split; [reflexivity|]. repeat (split; [assumption|]).
    assert (Hrep : forall e', @Throw CheckResult e = Throw e' ->
              reports storeUrl e'
                {| url := storeUrl; type := Error; status := None;
                   redirect := None; note := None;
                   error := Some (match e with
                                  | ErrorObject message => message
                                  | NonError rendering => rendering
                                  end) |}).
    { intros e' [= <-]. unfold reports. repeat split. }
    split.
    + intros k ev e' Hk He. destruct (Hthrow k ev e' Hk He) as [Hl He'].
      split; [assumption|]. now apply Hrep.
    + right. exists e. split; [reflexivity|]. now apply Hrep.
Qed.

(** A response that ends an iteration ends the probe. *)
Lemma checkStore_returns (storeUrl : jsstring) (w0 : World) i cur lastStatus
    w w1 resp r :
  follows i (storeUrl ++ lit "/account/login") 0 w0 cur lastStatus w ->
  (i < 6)%nat ->
  fetch (request cur) w = (w1, Ok resp) ->
  on_response storeUrl cur resp = Ok (Return r) ->
  checkStore storeUrl w0 = (w1, Ok r).
Proof.
  intros Hfo Hi Hf Hr. unfold checkStore, try_catch.
  replace maxRedirects with (i + S (5 - i))%nat
    by (unfold maxRedirects; lia).
  rewrite (follows_loop storeUrl _ _ _ _ _ _ _ Hfo).
  cbn [redirectLoop]. unfold bind, lift, ret. now rewrite Hf, Hr.
Qed.

(** An exception at any iteration ends the probe in the [catch] clause:
    from [fetch], or from the body of the loop (reading the text, parsing
    a URL). *)
Lemma checkStore_catches_fetch (storeUrl : jsstring) (w0 : World) i cur
    lastStatus w w1 e :
  follows i (storeUrl ++ lit "/account/login") 0 w0 cur lastStatus w ->
  (i < 6)%nat ->
  fetch (request cur) w = (w1, Throw e) ->
  exists r, checkStore storeUrl w0 = (w1, Ok r) /\ reports storeUrl e r.
Proof.
  intros Hfo Hi Hf. unfold checkStore, try_catch.
  replace maxRedirects with (i + S (5 - i))%nat
    by (unfold maxRedirects; lia).
  rewrite (follows_loop storeUrl _ _ _ _ _ _ _ Hfo).
  cbn [redirectLoop]. unfold bind. rewrite Hf.
  unfold on_exception, ret. eexists. split; [reflexivity|].
  unfold reports. repeat split.
Qed.

Lemma checkStore_catches_body (storeUrl : jsstring) (w0 : World) i cur
    lastStatus w w1 resp e :
  follows i (storeUrl ++ lit "/account/login") 0 w0 cur lastStatus w ->
  (i < 6)%nat ->
  fetch (request cur) w = (w1, Ok resp) ->
  on_response storeUrl cur resp = Throw e ->
  exists r, checkStore storeUrl w0 = (w1, Ok r) /\ reports storeUrl e r.
Proof.
  intros Hfo Hi Hf Hr. unfold checkStore, try_catch.
  replace maxRedirects with (i + S (5 - i))%nat
    by (unfold maxRedirects; lia).
  rewrite (follows_loop storeUrl _ _ _ _ _ _ _ Hfo).
  cbn [redirectLoop]. unfold bind, lift. rewrite Hf, Hr.
  unfold on_exception, ret. eexists. split; [reflexivity|].
  unfold reports. repeat split.
Qed.

(** * The claims about the probe *)

(** C1: for every store URL and every transport, [checkStore] returns a
    result and throws nothing.  When the body of the [try] throws, the
    result is an error carrying the message of what was thrown, and the
    world is left as it was at the throw: this holds in particular for a
    request that fails and for a loop body that throws, at any iteration.
    A request that fails is the last request of the probe: nothing is
    retried. *)
Theorem checkStore_never_throws (storeUrl : jsstring) (w : World) :
  exists w' r evs,
    checkStore storeUrl w = (w', Ok r) /\
    log w' = log w ++ evs /\
    (forall w'' e,
       redirectLoop maxRedirects storeUrl (storeUrl ++ lit "/account/login")
         0 w = (w'', Throw e) ->
       w'' = w' /\ reports storeUrl e r /\
       forall message, e = ErrorObject message -> error r = Some message) /\
    (forall k ev e,
       evs !! k = Some ev -> ev_outcome ev = Throw e ->
       S k = length evs /\ reports storeUrl e r /\
       forall message, e = ErrorObject message -> error r = Some message) /\
    (forall i cur lastStatus wi w1 e,
       follows i (storeUrl ++ lit "/account/login") 0 w cur lastStatus wi ->
       (i < 6)%nat ->
       fetch (request cur) wi = (w1, Throw e) \/
       (exists resp, fetch (request cur) wi = (w1, Ok resp) /\
                     on_response storeUrl cur resp = Throw e) ->
       w1 = w' /\ reports storeUrl e r).
Proof.
  destruct (checkStore_settles storeUrl w)
    as [w' [r [evs [Hc [Hlog [_ [_ [Hthrow _]]]]]]]].
  exists w', r, evs. repeat (split; [assumption|]).
  assert (Hmsg : forall e, reports storeUrl e r ->
            forall message, e = ErrorObject message -> error r = Some message).
  { intros e [_ [_ [_ [_ [_ He]]]]] message ->. exact He. }
  split; [|split].
  - intros w'' e H. unfold checkStore, try_catch in Hc. rewrite H in Hc.
    unfold on_exception, ret in Hc.
    assert (Hw : w'' = w') by congruence.
    assert (Hrep : reports storeUrl e r).
    { injection Hc as _ <-. unfold reports. repeat split. }
    eauto.
  - intros k ev e Hk He. destruct (Hthrow k ev e Hk He). eauto.
  - intros i cur lastStatus wi w1 e Hfo Hi [Hf|[resp [Hf Hr]]].
    + destruct (checkStore_catches_fetch _ _ _ _ _ _ _ _ Hfo Hi Hf)
        as [r1 [Hc1 Hrep]].
      assert (w1 = w') by congruence. assert (r1 = r) by congruence.
      now subst.
    + destruct (checkStore_catches_body _ _ _ _ _ _ _ _ _ Hfo Hi Hf Hr)
        as [r1 [Hc1 Hrep]].
      assert (w1 = w') by congruence. assert (r1 = r) by congruence.
      now subst.
Qed.

(** C3: whenever the loop receives a response, at whatever iteration and
    with whatever status, whose Location header contains one of the three
    signals, [checkStore] returns at once (no further request) the result
    [New] with the status of that response and the raw Location as
    [redirect]. *)
Theorem location_signal_wins (storeUrl : jsstring) (w0 : World) i cur
    lastStatus w w1 resp location :
  follows i (storeUrl ++ lit "/account/login") 0 w0 cur lastStatus w ->
  (i < 6)%nat ->
  fetch (request cur) w = (w1, Ok resp) ->
  headers_get resp (lit "location") = Some location ->
  contains location (lit "shopify.com/authentication") \/
  contains location (lit "/auth/login") \/
  contains location (lit "accounts.shopify.com") ->
  checkStore storeUrl w0 =
  (w1, Ok {| url := storeUrl; type := New; status := Some (resp_status resp);
             redirect := Some location; note := None; error := None |}).
Proof.
  intros Hfo Hi Hf Hloc Hsig.
  apply (checkStore_returns storeUrl w0 i cur lastStatus w w1 resp);
    try assumption.
  now apply on_response_signal.
Qed.

Lemma classifyFromBody_fields u body st :
  url (classifyFromBody u body st) = u /\
  status (classifyFromBody u body st) = Some st /\
  redirect (classifyFromBody u body st) = None /\
  error (classifyFromBody u body st) = None.
Proof.
  unfold classifyFromBody.
  repeat match goal with
         | |- context [if ?b then _ else _] => destruct b
         end; repeat split.
Qed.

(** C4: every result of [checkStore] has one of the six types; it has an
    [error] exactly when its type is [Error], and then neither status nor
    note; it has a [redirect] only when its type is [New] and the last
    response received carried that Location, with a signal in it.  Results
    of the body classification and of the 406 branch have no redirect. *)
Theorem checkStore_result_invariants (storeUrl : jsstring) (w w' : World)
    r :
  checkStore storeUrl w = (w', Ok r) ->
  In (type r) [New; Legacy; PasswordProtected; NotShopify; Unknown; Error] /\
  (is_Some (error r) <-> type r = Error) /\
  (type r = Error -> status r = None /\ note r = None) /\
  (forall location,
     redirect r = Some location ->
     type r = New /\ note r = None /\
     exists evs ev resp,
       log w' = log w ++ evs /\ list.last evs = Some ev /\
       ev_outcome ev = Ok resp /\
       headers_get resp (lit "location") = Some location /\
       hasRedirectSignal location) /\
  (forall u body st, redirect (classifyFromBody u body st) = None) /\
  (forall host,
     note r = Some (lit "Redirected to custom account domain: " ++ host) ->
     redirect r = None).
Proof.
  intros H.
  destruct (checkStore_settles storeUrl w)
    as [w1 [r1 [evs [Hc [Hlog [_ [_ [_ Hcase]]]]]]]].
  assert (w1 = w') by congruence. assert (r1 = r) by congruence.
  subst w1 r1. split.
  { destruct (type r); cbn; auto 10. }
  split; [|split; [|split; [|split]]].
  - destruct Hcase as [[ev [resp [_ [_ [_ [Hty [Herr _]]]]]]]
                      |[e [_ [_ [Hty [_ [_ [_ Herr]]]]]]]].
    + rewrite Herr. split; [intros [x Hx]; discriminate | contradiction].
    + rewrite Herr. split; eauto.
  - destruct Hcase as [[ev [resp [_ [_ [_ [Hty _]]]]]]
                      |[e [_ [_ [_ [Hst [_ [Hno _]]]]]]]]; [contradiction|].
    auto.
  - intros location Hred.
    destruct Hcase as [[ev [resp [Hlast [Ho [_ [_ [_ [_ Hm]]]]]]]]
                      |[e [_ [_ [_ [_ [Hr _]]]]]]]; [|congruence].
    rewrite Hred in Hm. destruct Hm as [Hty [Hno [Hloc Hsig]]].
    split; [assumption|]. split; [assumption|].
    exists evs, ev, resp. auto.
  - intros u body st. apply classifyFromBody_fields.
  - intros host Hnote.
    destruct Hcase as [[ev [resp [_ [_ [_ [_ [_ [_ Hm]]]]]]]]
                      |[e [_ [_ [_ [_ [Hr _]]]]]]]; [|assumption].
    destruct (redirect r); [|reflexivity].
    destruct Hm as [_ [Hno _]]. congruence.
Qed.

(** C10: a result of [checkStore] has a [status] exactly when its type is
    not [Error], and it is the status of the last response received; its
    [url] is the store URL that was passed, on every branch.  The body
    classification echoes the URL and the status it is given. *)
Theorem checkStore_status_and_url (storeUrl : jsstring) (w w' : World) r :
  checkStore storeUrl w = (w', Ok r) ->
  url r = storeUrl /\
  (is_Some (status r) <-> type r <> Error) /\
  (type r <> Error ->
   exists evs ev resp,
     log w' = log w ++ evs /\ list.last evs = Some ev /\
     ev_outcome ev = Ok resp /\ status r = Some (resp_status resp)) /\
  (forall u body st,
     url (classifyFromBody u body st) = u /\
     status (classifyFromBody u body st) = Some st).
Proof.
  intros H.
  destruct (checkStore_settles storeUrl w)
    as [w1 [r1 [evs [Hc [Hlog [_ [_ [_ Hcase]]]]]]]].
  assert (w1 = w') by congruence. assert (r1 = r) by congruence.
  subst w1 r1.
  destruct Hcase as [[ev [resp [Hlast [Ho [Hurl [Hty [_ [Hst _]]]]]]]]
                    |[e [_ [Hurl [Hty [Hst _]]]]]].
  - split; [assumption|]. split; [|split].
    + rewrite Hst. split; eauto.
    + intros _. exists evs, ev, resp. auto.
    + intros u body st. split; apply classifyFromBody_fields.
  - split; [assumption|]. split; [|split].
    + rewrite Hst, Hty. split; [intros [x Hx]; discriminate | congruence].
    + congruence.
    + intros u body st. split; apply classifyFromBody_fields.
Qed.

(** C5, amended: a probe makes at most six requests, all of them GETs with
    manual redirects; and when each of the six iterations receives a 3xx
    response whose Location is non-empty, holds no signal and is absolute
    or resolves against the current URL, the result is [Unknown] with the
    note [Too many redirects] and the status of the sixth response. *)
Theorem too_many_redirects (storeUrl : jsstring) :
  (forall (w w' : World) res,
     checkStore storeUrl w = (w', res) ->
     exists evs, log w' = log w ++ evs /\ (length evs <= 6)%nat /\
                 Forall isProbeRequest evs) /\
  (forall (w0 : World) cur lastStatus w6,
     follows 6 (storeUrl ++ lit "/account/login") 0 w0 cur lastStatus w6 ->
     checkStore storeUrl w0 =
     (w6, Ok {| url := storeUrl; type := Unknown; status := Some lastStatus;
                redirect := None; note := Some (lit "Too many redirects");
                error := None |}) /\
     (exists req resp,
        list.last (log w6) = Some (mkEvent req (Ok resp)) /\
        lastStatus = resp_status resp) /\
     (exists evs, log w6 = log w0 ++ evs /\ length evs = 6%nat /\
                  Forall isProbeRequest evs)).
Proof.
  split.
  - intros w w' res H.
    destruct (checkStore_settles storeUrl w)
      as [w1 [r1 [evs [Hc [Hlog [Hlen [Hall _]]]]]]].
    assert (w1 = w') by congruence. subst w1. eauto.
  - intros w0 cur lastStatus w6 Hfo. split; [|split].
    + unfold checkStore, try_catch.
      change maxRedirects with (6 + 0)%nat.
      now rewrite (follows_loop storeUrl _ _ _ _ _ _ _ Hfo).
    + now apply follows_last in Hfo.
    + now apply follows_log in Hfo.
Qed.

Lemma not_3xx_test (st : N) (location : jsstring) :
  st = 404 \/ st = 406 ->
  (300 <=? st) && (st <? 400) && truthy location = false.
Proof. intros [-> | ->]; reflexivity. Qed.

Lemma on_response_404 storeUrl cur resp :
  resp_status resp = 404 ->
  noRedirectSignal resp ->
  on_response storeUrl cur resp =
  Ok (Return {| url := storeUrl; type := NotShopify; status := Some 404;
                redirect := None;
                note := Some (lit "No /account/login page found "
                                ++ emDash
                                ++ lit " likely not a Shopify store");
                error := None |}).
Proof.
  intros Hst Hns. unfold on_response.
  rewrite (location_test_none resp Hns), not_3xx_test by auto.
  rewrite Hst. reflexivity.
Qed.

Lemma on_response_406_custom storeUrl cur resp redirectHost storeHost :
  resp_status resp = 406 ->
  noRedirectSignal resp ->
  cur <> storeUrl ++ lit "/account/login" ->
  url_hostname cur = Ok redirectHost ->
  url_hostname storeUrl = Ok storeHost ->
  redirectHost <> storeHost ->
  on_response storeUrl cur resp =
  Ok (Return {| url := storeUrl; type := New; status := Some 406;
                redirect := None;
                note := Some (lit "Redirected to custom account domain: "
                                ++ redirectHost);
                error := None |}).
Proof.
  intros Hst Hns Hcur Hrh Hsh Hne. unfold on_response.
  rewrite (location_test_none resp Hns), not_3xx_test by auto.
  rewrite Hst, (bool_decide_eq_false_2 _ Hcur).
  change ((406 =? 406) && negb false) with true. cbv iota.
  rewrite Hrh, Hsh. cbn [bindR].
  now rewrite (bool_decide_eq_false_2 _ Hne).
Qed.

Lemma on_response_406_unknown storeUrl cur resp :
  resp_status resp = 406 ->
  noRedirectSignal resp ->
  cur = storeUrl ++ lit "/account/login" \/
  (exists host,
     url_hostname cur = Ok host /\ url_hostname storeUrl = Ok host) ->
  on_response storeUrl cur resp =
  Ok (Return {| url := storeUrl; type := Unknown; status := Some 406;
                redirect := None;
                note := Some (lit "Unexpected status 406 at " ++ cur);
                error := None |}).
Proof.
  intros Hst Hns Hcase. unfold on_response.
  rewrite (location_test_none resp Hns), not_3xx_test by auto.
  rewrite Hst.
  destruct (decide (cur = storeUrl ++ lit "/account/login")) as [Heq|Hcur].
  - rewrite (bool_decide_eq_true_2 _ Heq). reflexivity.
  - destruct Hcase as [?|[host [Hrh Hsh]]]; [contradiction|].
    rewrite (bool_decide_eq_false_2 _ Hcur).
    change ((406 =? 406) && negb false) with true. cbv iota.
    rewrite Hrh, Hsh. cbn [bindR].
    rewrite (bool_decide_eq_true_2 _ (eq_refl host)). reflexivity.
Qed.

(** C6: a 406 without Location signal, received at a candidate URL other
    than the login URL whose hostname differs from the store's, gives [New]
    with a note naming that hostname; received at the login URL, or at a
    URL on the store's host, it gives [Unknown] with a note holding 406 and
    the URL.  A candidate other than the login URL is only reached after a
    redirect. *)
Theorem status_406 (storeUrl : jsstring) (w0 : World) i cur lastStatus
    w w1 resp :
  follows i (storeUrl ++ lit "/account/login") 0 w0 cur lastStatus w ->
  (i < 6)%nat ->
  fetch (request cur) w = (w1, Ok resp) ->
  resp_status resp = 406 ->
  noRedirectSignal resp ->
  (forall redirectHost storeHost,
     cur <> storeUrl ++ lit "/account/login" ->
     url_hostname cur = Ok redirectHost ->
     url_hostname storeUrl = Ok storeHost ->
     redirectHost <> storeHost ->
     checkStore storeUrl w0 =
     (w1, Ok {| url := storeUrl; type := New; status := Some 406;
                redirect := None;
                note := Some (lit "Redirected to custom account domain: "
                                ++ redirectHost);
                error := None |})) /\
  (cur = storeUrl ++ lit "/account/login" \/
   (exists host,
      url_hostname cur = Ok host /\ url_hostname storeUrl = Ok host) ->
   checkStore storeUrl w0 =
   (w1, Ok {| url := storeUrl; type := Unknown; status := Some 406;
              redirect := None;
              note := Some (lit "Unexpected status 406 at " ++ cur);
              error := None |})) /\
  (cur <> storeUrl ++ lit "/account/login" -> (0 < i)%nat).
Proof.
  intros Hfo Hi Hf Hst Hns. split; [|split].
  - intros redirectHost storeHost Hcur Hrh Hsh Hne.
    apply (checkStore_returns storeUrl w0 i cur lastStatus w w1 resp);
      try assumption.
    now apply on_response_406_custom with (storeHost := storeHost).
  - intros Hcase.
    apply (checkStore_returns storeUrl w0 i cur lastStatus w w1 resp);
      try assumption.
    now apply on_response_406_unknown.
  - intros Hcur. destruct i; [|lia]. inversion Hfo; subst. contradiction.
Qed.

(** C7: a 404 without Location signal gives [NotShopify] with its note,
    whatever the body of the response: the loop body gives the same for
    every body, also for one that cannot be read, and two probes that
    receive 404 responses with the same status and headers return the same
    result. *)
Theorem status_404 (storeUrl : jsstring) (w0 : World) i cur lastStatus
    w w1 resp :
  follows i (storeUrl ++ lit "/account/login") 0 w0 cur lastStatus w ->
  (i < 6)%nat ->
  fetch (request cur) w = (w1, Ok resp) ->
  resp_status resp = 404 ->
  noRedirectSignal resp ->
  checkStore storeUrl w0 =
  (w1, Ok {| url := storeUrl; type := NotShopify; status := Some 404;
             redirect := None;
             note := Some (lit "No /account/login page found "
                             ++ emDash
                             ++ lit " likely not a Shopify store");
             error := None |}) /\
  (forall text',
     on_response storeUrl cur
       {| resp_status := resp_status resp;
          resp_headers := resp_headers resp;
          resp_text := text' |} =
     on_response storeUrl cur resp) /\
  (forall (v0 v v1 : World) j cur' lastStatus' resp',
     follows j (storeUrl ++ lit "/account/login") 0 v0 cur' lastStatus' v ->
     (j < 6)%nat ->
     fetch (request cur') v = (v1, Ok resp') ->
     resp_status resp' = resp_status resp ->
     resp_headers resp' = resp_headers resp ->
     snd (checkStore storeUrl v0) = snd (checkStore storeUrl w0)).
Proof.
  intros Hfo Hi Hf Hst Hns.
  assert (Hc : checkStore storeUrl w0 =
    (w1, Ok {| url := storeUrl; type := NotShopify; status := Some 404;
               redirect := None;
               note := Some (lit "No /account/login page found "
                               ++ emDash
                               ++ lit " likely not a Shopify store");
               error := None |})).
  { apply (checkStore_returns storeUrl w0 i cur lastStatus w w1 resp);
      try assumption.
    now apply on_response_404. }
  split; [exact Hc|]. split.
  - intros text'. rewrite (on_response_404 storeUrl cur resp Hst Hns).
    now apply on_response_404.
  - intros v0 v v1 j cur' lastStatus' resp' Hfo' Hj Hf' Hst' Hhs.
    rewrite Hc.
    erewrite (checkStore_returns storeUrl v0 j cur' lastStatus' v v1 resp');
      [reflexivity | eassumption | assumption | eassumption |].
    apply on_response_404; [congruence|].
    intros location Hl. apply Hns. unfold headers_get in *. congruence.
Qed.

(** * The batch endpoint *)

Variable view : nat -> World.

Local Abbreviation settled :=
  (settled url_hostname url_href transport_fetch view).
Local Abbreviation streamFrom :=
  (streamFrom url_hostname url_href transport_fetch view).
Local Abbreviation start := (start url_hostname url_href transport_fetch view).
Local Abbreviation POST := (POST url_hostname url_href transport_fetch view).

(** Every classification settles with a result for its own URL. *)
Lemma settled_Ok k u : exists r, settled k u = Ok r /\ url r = u.
Proof.
  unfold settled.
  destruct (checkStore_settles u (view k))
    as [w' [r [evs [Hc [_ [_ [_ [_ Hcase]]]]]]]].
  exists r. rewrite Hc. split; [reflexivity|].
  destruct Hcase as [[ev [resp [_ [_ [Hurl _]]]]]|[e [_ [Hurl _]]]];
    exact Hurl.
Qed.

Lemma imap_settled_Ok (l : list jsstring) :
  forall i, exists rs,
    imap (fun j u => settled (i + j) u) l = Ok <$> rs /\ url <$> rs = l.
Proof.
  induction l as [|u l IH]; intros i.
  - now exists [].
  - destruct (settled_Ok (i + 0) u) as [r [Hr Hu]].
    destruct (IH (S i)) as [rs [Hrs Hus]].
    exists (r :: rs). cbn [imap fmap list_fmap]. rewrite Hr. split.
    + f_equal. rewrite <- Hrs. apply imap_ext. intros j x _. cbn.
      f_equal. lia.
    + cbn. now rewrite Hu, Hus.
Qed.

Lemma promiseAll_Ok {A} (rs : list A) : promiseAll (Ok <$> rs) = Ok rs.
Proof.
  induction rs as [|r rs IH]; [reflexivity|].
  cbn [fmap list_fmap promiseAll bindR].
  change (list_fmap A (result A) Ok rs) with (Ok <$> rs).
  now rewrite IH.
Qed.

(** The loop enqueues the classification of every URL, in order, and
    closes the stream; [length urls] rounds are enough for that. *)
Lemma streamFrom_all (urls : list jsstring) :
  forall fuel i enqueued,
    (i <= length urls)%nat ->
    (length urls <= i + CONCURRENCY * fuel)%nat ->
    Ok <$> enqueued = imap settled (take i urls) ->
    exists chunks,
      streamFrom fuel i urls enqueued = (chunks, Closed) /\
      Ok <$> chunks = imap settled urls.
Proof.
  unfold CONCURRENCY.
  induction fuel as [|fuel IH]; intros i enqueued Hi Hfuel Hinv.
  - exists enqueued. split; [reflexivity|].
    rewrite take_ge in Hinv by lia. exact Hinv.
  - cbn [streamFrom]. destruct (i <? length urls)%nat eqn:Hlt.
    + apply Nat.ltb_lt in Hlt. unfold slice, CONCURRENCY.
      replace (i + 5 - i)%nat with 5%nat by lia.
      destruct (imap_settled_Ok (take 5 (drop i urls)) i) as [rs [Hrs _]].
      match goal with
      | |- context [promiseAll ?l] =>
          assert (Hl : l = Ok <$> rs) by exact Hrs; rewrite Hl
      end.
      rewrite promiseAll_Ok.
      destruct (Nat.le_gt_cases (i + 5) (length urls)) as [Hle|Hgt].
      * apply IH; [lia | lia |].
        rewrite fmap_app, Hinv, <- Hrs, <- take_take_drop, imap_app.
        rewrite length_take, Nat.min_l by lia. reflexivity.
      * assert (Hall : Ok <$> (enqueued ++ rs) = imap settled urls).
        { rewrite fmap_app, Hinv, <- Hrs.
          rewrite <- (take_drop i urls) at 3. rewrite imap_app.
          rewrite length_take, Nat.min_l by lia.
          rewrite (take_ge (drop i urls)); [reflexivity|].
          rewrite length_drop. lia. }
        destruct fuel as [|fuel]; cbn [streamFrom].
        -- eexists. split; [reflexivity | exact Hall].
        -- assert (Hge : (i + 5 <? length urls)%nat = false)
             by (apply Nat.ltb_ge; lia).
           unfold CONCURRENCY. rewrite Hge.
           eexists. split; [reflexivity | exact Hall].
    + apply Nat.ltb_ge in Hlt. exists enqueued. split; [reflexivity|].
      rewrite take_ge in Hinv by lia. exact Hinv.
Qed.

Lemma start_all (urls : list jsstring) :
  exists chunks,
    start urls = (chunks, Closed) /\
    Ok <$> chunks = imap settled urls /\ url <$> chunks = urls.
Proof.
  destruct (streamFrom_all urls (length urls) 0 []) as [chunks [Hs Hc]];
    [lia | unfold CONCURRENCY; lia | reflexivity |].
  exists chunks. split; [exact Hs|]. split; [exact Hc|].
  destruct (imap_settled_Ok urls 0) as [rs [Hrs Hus]].
  assert (Heq : Ok <$> chunks = Ok <$> rs) by (rewrite Hc; exact Hrs).
  assert (Hinj : chunks = rs).
  { clear -Heq. revert rs Heq.
    induction chunks as [|c cs IH]; intros [|r rs] Heq;
      try discriminate; [reflexivity|].
    cbn in Heq. injection Heq as -> Heq. f_equal. now apply IH. }
  now subst.
Qed.

(** Whenever some URL is left after normalisation, the endpoint streams
    the classifications of the first 100 normalized URLs at most, in order,
    and closes the stream. *)
Lemma POST_streams (rawUrls : list jsstring) :
  flat_map parseUrls rawUrls <> [] ->
  exists chunks,
    POST (Some rawUrls) = Streamed chunks Closed /\
    url <$> chunks = take 100 (flat_map parseUrls rawUrls) /\
    Ok <$> chunks = imap settled (take 100 (flat_map parseUrls rawUrls)).
Proof.
  intros Hne. unfold POST.
  destruct rawUrls as [|raw rawUrls]; [now destruct Hne|].
  set (normalized := flat_map parseUrls (raw :: rawUrls)) in *.
  cbv zeta. unfold slice. rewrite drop_0.
  replace (100 - 0)%nat with 100%nat by lia.
  destruct (length (take 100 normalized) =? 0)%nat eqn:Hl.
  - apply Nat.eqb_eq, length_zero_iff_nil in Hl.
    destruct normalized; [now destruct Hne | discriminate].
  - destruct (start_all (take 100 normalized)) as [chunks [Hs [Hc Hu]]].
    rewrite Hs. exists chunks. auto.
Qed.

(** C9: when the [urls] of a request yield more than 100 normalized URLs,
    the endpoint classifies and streams exactly the first 100 of them, in
    order, and closes the stream; the others are dropped. *)
Theorem batch_caps_at_100 (rawUrls : list jsstring) :
  (100 < length (flat_map parseUrls rawUrls))%nat ->
  exists chunks,
    POST (Some rawUrls) = Streamed chunks Closed /\
    length chunks = 100%nat /\
    url <$> chunks = take 100 (flat_map parseUrls rawUrls) /\
    Ok <$> chunks = imap settled (take 100 (flat_map parseUrls rawUrls)).
Proof.
  intros Hlen.
  destruct (POST_streams rawUrls) as [chunks [HP [Hu Hc]]].
  - intros E. rewrite E in Hlen. cbn in Hlen. lia.
  - exists chunks. split; [exact HP|]. split; [|split; assumption].
    rewrite <- (length_fmap url), Hu, length_take. lia.
Qed.

End CheckerTheory.

(** * The statements at concrete inputs *)

Ltac no_signal :=
  rewrite <- isNewAccountRedirect_signal; vm_compute; discriminate.

Ltac followed :=
  eapply follows_S;
  [ vm_compute; reflexivity
  | eapply RedirectsTo;
    [ vm_compute; split; [discriminate | reflexivity]
    | vm_compute; reflexivity
    | discriminate
    | no_signal
    | vm_compute; reflexivity ]
  | ].

Lemma location_signal_wins_witness :
  snd (checkStore simple_hostname simple_href scripted shop
         (mkWorld
            [ movedTo "https://shop.example/en/account/login";
              Ok (response 200
                    [(lit "location", lit "https://accounts.shopify.com/x")]
                    []) ]
            [])) =
  Ok {| url := shop; type := New; status := Some 200;
        redirect := Some (lit "https://accounts.shopify.com/x");
        note := None; error := None |}.
Proof.
  refine (f_equal snd
            (location_signal_wins simple_hostname simple_href scripted shop
               _ 1 _ _ _ _
               (response 200
                  [(lit "location", lit "https://accounts.shopify.com/x")] [])
               (lit "https://accounts.shopify.com/x") _ _ _ _ _)).
  - followed. apply follows_0.
  - lia.
  - vm_compute. reflexivity.
  - vm_compute. reflexivity.
  - right. right. apply includes_contains. vm_compute. reflexivity.
Defined.

Lemma checkStore_result_invariants_witness :
  exists w' r,
    checkStore simple_hostname simple_href scripted shop hostedLogin =
    (w', Ok r) /\
    (is_Some (error r) <-> type r = Error) /\
    (forall location, redirect r = Some location -> type r = New).
Proof.
  eexists _, _. split; [vm_compute; reflexivity|].
  eassert (H : _);
    [ eapply (checkStore_result_invariants simple_hostname simple_href
                scripted shop hostedLogin); vm_compute; reflexivity |].
  destruct H as [_ [Herr [_ [Hred _]]]].
  split; [exact Herr|]. intros location Hl. now apply Hred in Hl.
Defined.

Lemma checkStore_status_and_url_witness :
  exists w' r,
    checkStore simple_hostname simple_href scripted shop legacyForm =
    (w', Ok r) /\
    url r = shop /\ (is_Some (status r) <-> type r <> Error).
Proof.
  eexists _, _. split; [vm_compute; reflexivity|].
  eassert (H : _);
    [ eapply (checkStore_status_and_url simple_hostname simple_href
                scripted shop legacyForm); vm_compute; reflexivity |].
  destruct H as [Hurl [Hst _]]. split; [exact Hurl | exact Hst].
Defined.

Lemma too_many_redirects_witness :
  snd (checkStore simple_hostname simple_href scripted shop
         (mkWorld
            [ movedTo "https://shop.example/1";
              movedTo "https://shop.example/2";
              movedTo "https://shop.example/3";
              movedTo "https://shop.example/4";
              movedTo "https://shop.example/5";
              Ok (response 307 [(lit "location", lit "/6")] []) ]
            [])) =
  Ok {| url := shop; type := Unknown; status := Some 307;
        redirect := None; note := Some (lit "Too many redirects");
        error := None |}.
Proof.
  refine (f_equal snd
            (proj1 (proj2 (too_many_redirects simple_hostname simple_href
                             scripted shop) _ _ _ _ _))).
  do 6 followed. apply follows_0.
Defined.

Lemma status_406_witness :
  snd (checkStore simple_hostname simple_href scripted shop
         (mkWorld
            [ movedTo "https://account.brand.example/login";
              Ok (response 406 [] []) ]
            [])) =
  Ok {| url := shop; type := New; status := Some 406; redirect := None;
        note := Some (lit "Redirected to custom account domain: "
                        ++ lit "account.brand.example");
        error := None |}.
Proof.
  refine (f_equal snd
            (proj1 (status_406 simple_hostname simple_href scripted shop
                      _ 1 (lit "https://account.brand.example/login") _ _ _
                      (response 406 [] []) _ _ _ _ _)
               (lit "account.brand.example") (lit "shop.example") _ _ _ _)).
  - followed. apply follows_0.
  - lia.
  - vm_compute. reflexivity.
  - reflexivity.
  - intros location H. vm_compute in H. discriminate.
  - vm_compute. discriminate.
  - vm_compute. reflexivity.
  - vm_compute. reflexivity.
  - vm_compute. discriminate.
Defined.

Lemma status_404_witness :
  snd (checkStore simple_hostname simple_href scripted shop
         (mkWorld [Ok (response 404 [] (lit "Powered by Shopify"))] [])) =
  Ok {| url := shop; type := NotShopify; status := Some 404;
        redirect := None;
        note := Some (lit "No /account/login page found "
                        ++ emDash ++ lit " likely not a Shopify store");
        error := None |}.
Proof.
  refine (f_equal snd
            (proj1 (status_404 simple_hostname simple_href scripted shop
                      _ 0 _ _ _ _
                      (response 404 [] (lit "Powered by Shopify"))
                      _ _ _ _ _))).
  - apply follows_0.
  - lia.
  - vm_compute. reflexivity.
  - reflexivity.
  - intros location H. vm_compute in H. discriminate.
Defined.

Example POST_without_urls :
  POST simple_hostname simple_href (site nowhere) (fun _ => mkWorld tt [])
    (Some []) = Json400 (lit "No URLs provided").
Proof. reflexivity. Qed.

Example POST_only_comments :
  POST simple_hostname simple_href (site nowhere) (fun _ => mkWorld tt [])
    (Some [lit "# none"; lit "  "]) = Json400 (lit "No valid URLs found").
Proof. reflexivity. Qed.

Lemma batch_caps_at_100_witness :
  exists chunks,
    POST simple_hostname simple_href (site nowhere)
      (fun _ => mkWorld tt []) (Some (replicate 150 (lit "shop.example/"))) =
    Streamed chunks Closed /\
    length chunks = 100%nat.
Proof.
  destruct (batch_caps_at_100 simple_hostname simple_href (site nowhere)
              (fun _ => mkWorld tt []) (replicate 150 (lit "shop.example/")))
    as [chunks [HP [Hl _]]].
  - vm_compute. lia.
  - exists chunks. split; [exact HP | exact Hl].
Defined.

(** C5 as stated fails: six iterations each receive a 3xx response with a
    Location header that holds no signal, but the sixth Location is empty,
    so the sixth response is not followed and the note is not
    [Too many redirects]; and when the sixth Location is one that the URL
    parser rejects, the result is an error. *)
Lemma empty_location_not_followed :
  let five :=
    [ movedTo "https://shop.example/1";
      movedTo "https://shop.example/2";
      movedTo "https://shop.example/3";
      movedTo "https://shop.example/4";
      movedTo "https://shop.example/5" ] in
  let redirect_with (location : jsstring) :=
    five ++ [Ok (response 302 [(lit "location", location)] [])] in
  let run (location : jsstring) :=
    checkStore simple_hostname simple_href scripted shop
      (mkWorld (redirect_with location) []) in
  let allRedirects (script : list (result Response)) :=
    Forall (fun o => exists resp location,
              o = Ok resp /\ 300 <= resp_status resp < 400 /\
              headers_get resp (lit "location") = Some location /\
              ~ hasRedirectSignal location) script in
  (allRedirects (redirect_with []) /\
   length (log (fst (run []))) = 6%nat /\
   snd (run []) =
   Ok {| url := shop; type := Unknown; status := Some 302; redirect := None;
         note := Some (lit "Unexpected status 302 at https://shop.example/5");
         error := None |} /\
   forall r, snd (run []) = Ok r ->
             note r <> Some (lit "Too many redirects")) /\
  (allRedirects (redirect_with (lit "//")) /\
   length (log (fst (run (lit "//")))) = 6%nat /\
   snd (run (lit "//")) =
   Ok {| url := shop; type := Error; status := None; redirect := None;
         note := None; error := Some (lit "Invalid URL") |}).
Proof.
  cbv zeta.
  assert (Hall : forall location,
            ~ hasRedirectSignal location ->
            Forall (fun o => exists resp location,
                      o = Ok resp /\ 300 <= resp_status resp < 400 /\
                      headers_get resp (lit "location") = Some location /\
                      ~ hasRedirectSignal location)
              ([ movedTo "https://shop.example/1";
                 movedTo "https://shop.example/2";
                 movedTo "https://shop.example/3";
                 movedTo "https://shop.example/4";
                 movedTo "https://shop.example/5" ] ++
               [Ok (response 302 [(lit "location", location)] [])])).
  { intros location Hns. repeat constructor;
      try (eexists _, _; split; [reflexivity|]; split;
           [vm_compute; split; [discriminate | reflexivity]|];
           split; [vm_compute; reflexivity | no_signal]).
    exists (response 302 [(lit "location", location)] []), location.
    split; [reflexivity|].
    split; [vm_compute; split; [discriminate | reflexivity]|].
    split; [|exact Hns]. unfold headers_get, response. cbn [resp_headers].
    apply lookup_insert_eq. }
  split; [split; [|split; [|split]] | split; [|split]].
  - apply Hall. no_signal.
  - vm_compute. reflexivity.
  - vm_compute. reflexivity.
  - intros r H. vm_compute in H. injection H as <-. vm_compute. discriminate.
  - apply Hall. no_signal.
  - vm_compute. reflexivity.
  - vm_compute. reflexivity.
Qed.

(** An exception from reading the body, and one from resolving a Location,
    end in an error result with the message of the exception. *)
Example body_read_throws :
  snd (checkStore simple_hostname simple_href scripted shop
         (mkWorld [Ok {| resp_status := 200; resp_headers := ∅;
                         resp_text := Throw (ErrorObject (lit "terminated")) |}]
            [])) =
  Ok {| url := shop; type := Error; status := None; redirect := None;
        note := None; error := Some (lit "terminated") |}.
Proof. vm_compute. reflexivity. Qed.

Example location_does_not_resolve :
  snd (checkStore simple_hostname simple_href scripted shop
         (mkWorld [Ok (response 301 [(lit "location", lit "//")] [])] [])) =
  Ok {| url := shop; type := Error; status := None; redirect := None;
        note := None; error := Some (lit "Invalid URL") |}.
Proof. vm_compute. reflexivity. Qed.

(** * More on the probe *)

Section ProbeMore.

Variable url_hostname : jsstring -> result jsstring.
Variable url_href : jsstring -> jsstring -> result jsstring.
Context {Transport : Type}.
Variable transport_fetch :
  Transport -> Request -> Transport * result Response.

Local Abbreviation World := (@World Transport).
Local Abbreviation fetch := (fetch transport_fetch).
Local Abbreviation on_response := (on_response url_hostname url_href).
Local Abbreviation redirectLoop :=
  (redirectLoop url_hostname url_href transport_fetch).
Local Abbreviation checkStore :=
  (checkStore url_hostname url_href transport_fetch).
Local Abbreviation follows := (follows url_href transport_fetch).

Lemma includes_header (h : option jsstring) (p : jsstring) :
  p <> [] ->
  includes (or_empty h) p = true <-> exists v, h = Some v /\ contains v p.
Proof.
  intros Hp. destruct h as [v|]; cbn [or_empty].
  - rewrite includes_contains. split; [eauto|].
    intros [v' [E Hv]]. congruence.
  - split.
    + intros H. apply includes_contains in H as [a [b H]].
      destruct a; [destruct p; [congruence | discriminate] | discriminate].
    + intros [v [E _]]. discriminate.
Qed.

Lemma truthy_header (h : option jsstring) :
  truthy (or_empty h) = true <-> exists v, h = Some v /\ v <> [].
Proof.
  destruct h as [v|]; cbn [or_empty].
  - rewrite truthy_nonempty. split; [eauto|].
    intros [v' [E Hv]]. congruence.
  - split; [discriminate | intros [v [E _]]; discriminate].
Qed.

Lemma isShopify_fingerprint (resp : Response) :
  includes (or_empty (headers_get resp (lit "x-powered-by"))) (lit "Shopify")
  || truthy (or_empty (headers_get resp (lit "x-shopid")))
  || includes (or_empty (headers_get resp (lit "server-timing")))
       (lit "shopify")
  || includes (or_empty (headers_get resp (lit "server-timing")))
       (lit "pageType") = true <->
  platformFingerprint resp.
Proof.
  unfold platformFingerprint.
  rewrite !orb_true_iff, truthy_header, !includes_header by discriminate.
  split.
  - intros [[[H|H]|H]|H]; auto.
    + destruct H as [v [E Hv]]. right. right. eauto.
    + destruct H as [v [E Hv]]. right. right. eauto.
  - intros [H|[H|[v [E [Hv|Hv]]]]]; eauto 6.
Qed.

Lemma not_3xx (st : N) (location : jsstring) :
  st < 300 \/ 400 <= st ->
  (300 <=? st) && (st <? 400) && truthy location = false.
Proof.
  intros [H|H].
  - apply N.leb_gt in H. now rewrite H.
  - apply N.ltb_ge in H. rewrite H. now rewrite andb_false_r.
Qed.

Lemma on_response_200 storeUrl cur (resp : Response) body :
  resp_status resp = 200 ->
  noRedirectSignal resp ->
  resp_text resp = Ok body ->
  (~ platformFingerprint resp ->
   ~ contains body (lit "Shopify") ->
   ~ contains body (lit "myshopify") ->
   on_response storeUrl cur resp =
   Ok (Return {| url := storeUrl; type := NotShopify; status := Some 200;
                 redirect := None;
                 note := Some (lit "Does not appear to be a Shopify store");
                 error := None |})) /\
  (platformFingerprint resp \/ contains body (lit "Shopify") \/
   contains body (lit "myshopify") ->
   on_response storeUrl cur resp =
   Ok (Return (classifyFromBody storeUrl body 200))).
Proof.
  intros Hst Hns Hbody.
  assert (Hshape : on_response storeUrl cur resp =
    Ok (Return
          (if negb (includes (or_empty (headers_get resp (lit "x-powered-by")))
                      (lit "Shopify")
                    || truthy (or_empty (headers_get resp (lit "x-shopid")))
                    || includes
                         (or_empty (headers_get resp (lit "server-timing")))
                         (lit "shopify")
                    || includes
                         (or_empty (headers_get resp (lit "server-timing")))
                         (lit "pageType"))
              && negb (includes body (lit "Shopify"))
              && negb (includes body (lit "myshopify"))
           then {| url := storeUrl; type := NotShopify; status := Some 200;
                   redirect := None;
                   note := Some (lit "Does not appear to be a Shopify store");
                   error := None |}
           else classifyFromBody storeUrl body 200))).
  { unfold on_response.
    rewrite (location_test_none resp Hns), not_3xx by (rewrite Hst; lia).
    rewrite Hst, Hbody.
    change ((200 =? 406) && negb (bool_decide (cur = storeUrl ++ lit "/account/login")))
      with false.
    cbv iota. cbn [bindR]. change (200 =? 200) with true. cbv iota.
    match goal with |- context [if ?b then _ else _] => destruct b end;
      reflexivity. }
  rewrite Hshape.
  pose proof (isShopify_fingerprint resp) as Hfp.
  match type of Hfp with ?b = true <-> _ => destruct b end.
  - assert (Hp : platformFingerprint resp) by now apply Hfp.
    split; [contradiction | reflexivity].
  - assert (Hp : ~ platformFingerprint resp)
      by (intros X; apply Hfp in X; discriminate).
    cbn [negb andb].
    destruct (includes body (lit "Shopify")) eqn:E1;
      [apply includes_contains in E1 | apply not_includes_contains in E1];
      (destruct (includes body (lit "myshopify")) eqn:E2;
       [apply includes_contains in E2 | apply not_includes_contains in E2]);
      cbn [negb andb]; split; intros; try reflexivity; tauto.
Qed.

(** X1: a 200 without Location signal whose body can be read.  When no
    header marks the platform and the body holds neither [Shopify] nor
    [myshopify], the result is [NotShopify] with its note, whatever
    account signals the body holds; otherwise the result is the one of
    [classifyFromBody] on that body, with status 200. *)
Theorem status_200 (storeUrl : jsstring) (w0 : World) i cur lastStatus
    w w1 resp body :
  follows i (storeUrl ++ lit "/account/login") 0 w0 cur lastStatus w ->
  (i < 6)%nat ->
  fetch (request cur) w = (w1, Ok resp) ->
  resp_status resp = 200 ->
  noRedirectSignal resp ->
  resp_text resp = Ok body ->
  (~ platformFingerprint resp ->
   ~ contains body (lit "Shopify") ->
   ~ contains body (lit "myshopify") ->
   checkStore storeUrl w0 =
   (w1, Ok {| url := storeUrl; type := NotShopify; status := Some 200;
              redirect := None;
              note := Some (lit "Does not appear to be a Shopify store");
              error := None |})) /\
  (platformFingerprint resp \/ contains body (lit "Shopify") \/
   contains body (lit "myshopify") ->
   checkStore storeUrl w0 = (w1, Ok (classifyFromBody storeUrl body 200))).
Proof.
  intros Hfo Hi Hf Hst Hns Hbody.
  destruct (on_response_200 storeUrl cur resp body Hst Hns Hbody)
    as [Hnot Hyes].
  split; intros;
    apply (checkStore_returns url_hostname url_href transport_fetch
             storeUrl w0 i cur lastStatus w w1 resp); auto.
Qed.

(** X2: a response without Location signal that is not a followed
    redirect and whose status is none of 200, 404 and 406 (a 500, a 403,
    a 3xx without Location) ends the probe with [Unknown] and a note that
    holds the status and the URL requested. *)
Theorem unexpected_status (storeUrl : jsstring) (w0 : World) i cur lastStatus
    w w1 resp :
  follows i (storeUrl ++ lit "/account/login") 0 w0 cur lastStatus w ->
  (i < 6)%nat ->
  fetch (request cur) w = (w1, Ok resp) ->
  noRedirectSignal resp ->
  ~ redirects resp ->
  resp_status resp <> 200 ->
  resp_status resp <> 404 ->
  resp_status resp <> 406 ->
  checkStore storeUrl w0 =
  (w1, Ok {| url := storeUrl; type := Unknown;
             status := Some (resp_status resp); redirect := None;
             note := Some (lit "Unexpected status "
                             ++ ofNumber (resp_status resp)
                             ++ lit " at " ++ cur);
             error := None |}).
Proof.
  intros Hfo Hi Hf Hns Hnr H200 H404 H406.
  apply (checkStore_returns url_hostname url_href transport_fetch
           storeUrl w0 i cur lastStatus w w1 resp); auto.
  unfold on_response. rewrite (location_test_none resp Hns).
  assert (H3 : (300 <=? resp_status resp) && (resp_status resp <? 400)
               && truthy (or_empty (headers_get resp (lit "location")))
               = false).
  { apply not_true_iff_false. intros H.
    apply andb_true_iff in H as [H Ht]. apply andb_true_iff in H as [Hlo Hhi].
    apply N.leb_le in Hlo. apply N.ltb_lt in Hhi.
    apply truthy_header in Ht. apply Hnr. split; auto. }
  rewrite H3.
  apply N.eqb_neq in H200, H404, H406. rewrite H406, H200, H404.
  reflexivity.
Qed.

Lemma loop_first_request (storeUrl : jsstring) n cur lastStatus
    (w w' : World) res :
  redirectLoop (S n) storeUrl cur lastStatus w = (w', res) ->
  exists o rest, log w' = log w ++ mkEvent (request cur) o :: rest.
Proof.
  cbn [redirectLoop]. unfold bind at 1. intros H.
  destruct (fetch (request cur) w) as [w1 o] eqn:Hf.
  assert (Hlog := fetch_log _ _ _ _ _ Hf).
  destruct o as [resp|e].
  - unfold bind, lift in H.
    destruct (on_response storeUrl cur resp) as [[r|next]|e].
    + unfold ret in H. assert (w' = w1) by congruence. subst. eauto.
    + destruct (loop_settles _ _ _ _ _ _ _ _ _ _ H) as [evs [Hl _]].
      exists (Ok resp), evs. rewrite Hl, Hlog, <- app_assoc. reflexivity.
    + assert (w' = w1) by congruence. subst. eauto.
  - assert (w' = w1) by congruence. subst. eauto.
Qed.

Lemma checkStore_world (storeUrl : jsstring) (w : World) :
  fst (checkStore storeUrl w) =
  fst (redirectLoop maxRedirects storeUrl (storeUrl ++ lit "/account/login")
         0 w).
Proof.
  unfold checkStore, try_catch.
  destruct (redirectLoop maxRedirects storeUrl
              (storeUrl ++ lit "/account/login") 0 w) as [w' [r|e]];
    reflexivity.
Qed.

(** X3: the first request of a probe is for the store URL followed by
    [/account/login], and after [i] followed redirects the next request is
    for the URL the last Location gave: itself when it starts with [http],
    its resolution against the current URL otherwise.  Every request
    leaves redirects to the caller and carries the fixed User-Agent. *)
Theorem requests_of_probe (storeUrl : jsstring) :
  (forall w : World,
     exists o rest,
       log (fst (checkStore storeUrl w)) =
       log w ++ mkEvent (request (storeUrl ++ lit "/account/login")) o
                :: rest) /\
  (forall (w0 : World) i cur lastStatus w,
     follows i (storeUrl ++ lit "/account/login") 0 w0 cur lastStatus w ->
     (i < 6)%nat ->
     exists evs o rest,
       log (fst (checkStore storeUrl w0)) =
       log w0 ++ evs ++ mkEvent (request cur) o :: rest /\
       length evs = i) /\
  (forall u,
     req_url (request u) = u /\ req_redirect (request u) = Manual /\
     req_headers (request u) = [(lit "User-Agent", ua)]).
Proof.
  assert (Hgen : forall (w0 : World) i cur lastStatus w,
            follows i (storeUrl ++ lit "/account/login") 0 w0 cur lastStatus w ->
            (i < 6)%nat ->
            exists evs o rest,
              log (fst (checkStore storeUrl w0)) =
              log w0 ++ evs ++ mkEvent (request cur) o :: rest /\
              length evs = i).
  { intros w0 i cur lastStatus w Hfo Hi. rewrite checkStore_world.
    replace maxRedirects with (i + S (5 - i))%nat
      by (unfold maxRedirects; lia).
    rewrite (follows_loop _ _ _ storeUrl _ _ _ _ _ _ _ Hfo).
    destruct (redirectLoop (S (5 - i)) storeUrl cur lastStatus w)
      as [w' res] eqn:H.
    destruct (loop_first_request _ _ _ _ _ _ _ H) as [o [rest Hl]].
    destruct (follows_log _ _ _ _ _ _ _ _ _ Hfo) as [evs [Hlog [Hlen _]]].
    exists evs, o, rest. cbn [fst]. rewrite Hl, Hlog, <- app_assoc. auto. }
  split; [|split; [exact Hgen|]].
  - intros w.
    destruct (Hgen w 0%nat _ _ _ (follows_0 _ _ _ _ w)) as [evs [o [rest [Hl Hlen]]]];
      [lia|].
    destruct evs; [|discriminate]. eauto.
  - intros u. repeat split.
Qed.

End ProbeMore.

(** * More on the body classification *)

Lemma classifyFromBody_types (storeUrl body : jsstring) (st : N) :
  let r := classifyFromBody storeUrl body st in
  (type r = New -> HasNewSignal body) /\
  (type r = Legacy -> HasPasswordField body) /\
  (type r = PasswordProtected ->
   (contains body (lit "password-page") \/
    contains body (lit "storefront-password")) /\
   ~ HasNewSignal body /\ ~ HasPasswordField body) /\
  (type r = NotShopify ->
   ~ contains body (lit "Shopify") /\ ~ contains body (lit "shopify") /\
   ~ HasNewSignal body /\ ~ HasPasswordField body) /\
  (type r = Unknown -> ~ HasNewSignal body /\ ~ HasPasswordField body) /\
  type r <> Error /\
  (note r = None <-> type r = New \/ type r = Legacy).
Proof.
  unfold classifyFromBody.
  reflect_bool (some_included newAccountSignals body)
               (some_included_containsAny newAccountSignals body);
  reflect_bool (some_included legacySignals body)
               (some_included_containsAny legacySignals body);
  reflect_bool (includes body (lit "type=" ++ quoted "password") &&
                includes body (lit "customer"))
               (passwordField_reflect body);
  reflect_bool (includes body (lit "password-page") ||
                includes body (lit "storefront-password"))
               (passwordPage_reflect body);
  reflect_bool (negb (includes body (lit "Shopify")) &&
                negb (includes body (lit "shopify")))
               (noShopifyWord_reflect body);
  cbn [andb orb negb type note]; cbv zeta; unfold HasNewSignal;
  repeat split; intros; try discriminate; try tauto;
    try (left; reflexivity); try (right; reflexivity);
    try (destruct H as [H|H]; discriminate);
    unfold HasPasswordField in *; tauto.
Qed.

(** X4: what a type returned by [classifyFromBody] tells of the body.
    [New] needs a new-account signal and [Legacy] the password field; the
    three other types need that both are missing; [Error] is never
    returned; and the result has a note exactly when it is neither [New]
    nor [Legacy]. *)
Theorem classifyFromBody_sound (storeUrl body : jsstring) (st : N) :
  let r := classifyFromBody storeUrl body st in
  (type r = New -> HasNewSignal body) /\
  (type r = Legacy -> HasPasswordField body) /\
  (type r = PasswordProtected ->
   (contains body (lit "password-page") \/
    contains body (lit "storefront-password")) /\
   ~ HasNewSignal body /\ ~ HasPasswordField body) /\
  (type r = NotShopify ->
   ~ contains body (lit "Shopify") /\ ~ contains body (lit "shopify") /\
   ~ HasNewSignal body /\ ~ HasPasswordField body) /\
  (type r = Unknown -> ~ HasNewSignal body /\ ~ HasPasswordField body) /\
  type r <> Error /\
  (note r = None <-> type r = New \/ type r = Legacy).
Proof. exact (classifyFromBody_types storeUrl body st). Qed.

(** * More on the normalisation *)

Lemma dropWhile_all p ws x :
  Forall (fun c => p c = true) ws -> dropWhile p (ws ++ x) = dropWhile p x.
Proof.
  induction 1 as [|c ws Hc _ IH]; simpl; [reflexivity|]. now rewrite Hc.
Qed.

Lemma dropWhileEnd_all p ws :
  Forall (fun c => p c = true) ws -> dropWhileEnd p ws = [].
Proof.
  induction 1 as [|c ws Hc _ IH]; simpl; [reflexivity|]. now rewrite IH, Hc.
Qed.

Lemma dropWhileEnd_app_all p x ws :
  Forall (fun c => p c = true) ws ->
  dropWhileEnd p (x ++ ws) = dropWhileEnd p x.
Proof.
  intros H. induction x as [|c x IH]; simpl.
  - now apply dropWhileEnd_all.
  - now rewrite IH.
Qed.

Lemma dropWhile_app p x y :
  dropWhile p x <> [] -> dropWhile p (x ++ y) = dropWhile p x ++ y.
Proof.
  induction x as [|c x IH]; simpl; [congruence|].
  destruct (p c); [exact IH | reflexivity].
Qed.

Lemma dropWhile_nil_app p x y :
  dropWhile p x = [] -> dropWhile p (x ++ y) = dropWhile p y.
Proof.
  induction x as [|c x IH]; simpl; [reflexivity|].
  destruct (p c); [exact IH | discriminate].
Qed.

Lemma dropWhile_head p x c t : dropWhile p x = c :: t -> p c = false.
Proof.
  induction x as [|d x IH]; simpl; [discriminate|].
  destruct (p d) eqn:E; [exact IH | congruence].
Qed.

Lemma dropWhileEnd_idem p s :
  dropWhileEnd p (dropWhileEnd p s) = dropWhileEnd p s.
Proof.
  induction s as [|c s IH]; simpl; [reflexivity|].
  destruct (dropWhileEnd p s) as [|d r] eqn:E.
  - destruct (p c) eqn:Hc; simpl; [reflexivity | now rewrite Hc].
  - simpl in *. now rewrite IH.
Qed.

Lemma dropWhileEnd_last p s c :
  list.last (dropWhileEnd p s) = Some c -> p c = false.
Proof.
  induction s as [|d s IH]; simpl; [discriminate|].
  destruct (dropWhileEnd p s) as [|e r] eqn:E.
  - destruct (p d) eqn:Hd; simpl; [discriminate | congruence].
  - intros H. apply IH. exact H.
Qed.

Lemma dropWhileEnd_cons_keep p c s :
  p c = false -> dropWhileEnd p (c :: s) = c :: dropWhileEnd p s.
Proof. intros H. simpl. destruct (dropWhileEnd p s); now rewrite ?H. Qed.

Lemma trim_idem s : trim (trim s) = trim s.
Proof.
  unfold trim. destruct (dropWhile isWhiteSpace s) as [|c t] eqn:E;
    [reflexivity|].
  assert (Hc := dropWhile_head _ _ _ _ E).
  rewrite (dropWhileEnd_cons_keep _ _ _ Hc). simpl dropWhile. rewrite Hc.
  rewrite <- (dropWhileEnd_cons_keep _ _ _ Hc). apply dropWhileEnd_idem.
Qed.

Lemma trim_surrounded ws1 x ws2 :
  Forall (fun c => isWhiteSpace c = true) ws1 ->
  Forall (fun c => isWhiteSpace c = true) ws2 ->
  trim (ws1 ++ x ++ ws2) = trim x.
Proof.
  intros H1 H2. unfold trim. rewrite dropWhile_all by assumption.
  destruct (dropWhile isWhiteSpace x) as [|c t] eqn:E.
  - rewrite dropWhile_nil_app by assumption.
    rewrite <- (app_nil_r ws2), dropWhile_all by assumption. reflexivity.
  - rewrite dropWhile_app by congruence. rewrite E.
    now apply dropWhileEnd_app_all.
Qed.

Lemma normalizeUrl_trim s : normalizeUrl (trim s) = normalizeUrl s.
Proof. unfold normalizeUrl. now rewrite trim_idem. Qed.

(** X5: a URL kept by [normalizeUrl] does not end with a slash, so that
    the login URL built from it has a single slash before [account]; and
    white space around an entry does not change what [normalizeUrl]
    gives. *)
Theorem normalizeUrl_shape (input : jsstring) :
  (forall u, normalizeUrl input = Some u -> list.last u <> Some 47) /\
  (forall ws1 ws2,
     Forall (fun c => isWhiteSpace c = true) ws1 ->
     Forall (fun c => isWhiteSpace c = true) ws2 ->
     normalizeUrl (ws1 ++ input ++ ws2) = normalizeUrl input).
Proof.
  split.
  - intros u Hu. apply normalizeUrl_Some in Hu as [-> _].
    intros H. apply dropWhileEnd_last in H. discriminate.
  - intros ws1 ws2 H1 H2. unfold normalizeUrl.
    now rewrite trim_surrounded.
Qed.

(** Empty pieces never matter to [parseUrls]. *)
Lemma omap_normalizeUrl_filter (l : list jsstring) :
  omap normalizeUrl (List.filter truthy l) = omap normalizeUrl l.
Proof.
  induction l as [|p l IH]; [reflexivity|].
  destruct p as [|c p]; cbn [List.filter truthy].
  - exact IH.
  - cbn [omap list_omap]. fold (omap normalizeUrl l).
    fold (omap normalizeUrl (List.filter truthy l)). now rewrite IH.
Qed.

Lemma filter_splitFrom_run (b : jsstring) :
  List.filter truthy (splitFrom true [] b) =
  List.filter truthy (splitFrom false [] b).
Proof.
  destruct b as [|c b]; [reflexivity|]. simpl.
  destruct (isSeparator c); reflexivity.
Qed.

Lemma filter_splitFrom_app (sep : N) (a b : jsstring) :
  isSeparator sep = true ->
  forall r cur,
    (r = true -> cur = []) ->
    List.filter truthy (splitFrom r cur (a ++ sep :: b)) =
    List.filter truthy (splitFrom r cur a) ++
    List.filter truthy (splitFrom false [] b).
Proof.
  intros Hsep. induction a as [|c a IH]; intros r cur Hr.
  - simpl. rewrite Hsep. destruct r.
    + rewrite (Hr eq_refl). simpl. apply filter_splitFrom_run.
    + change (cur :: splitFrom true [] b)
        with ([cur] ++ splitFrom true [] b).
      rewrite List.filter_app. now rewrite filter_splitFrom_run.
  - simpl. destruct (isSeparator c).
    + destruct r.
      * now apply IH.
      * change (cur :: splitFrom true [] (a ++ sep :: b))
          with ([cur] ++ splitFrom true [] (a ++ sep :: b)).
        change (cur :: splitFrom true [] a)
          with ([cur] ++ splitFrom true [] a).
        rewrite !List.filter_app, <- app_assoc. f_equal. now apply IH.
    + apply IH. discriminate.
Qed.

Lemma parseUrls_split (l : list jsstring) :
  omap normalizeUrl l = omap normalizeUrl (List.filter truthy l).
Proof. symmetry. apply omap_normalizeUrl_filter. Qed.

Lemma parseUrls_app (sep : N) (a b : jsstring) :
  isSeparator sep = true ->
  parseUrls (a ++ sep :: b) = parseUrls a ++ parseUrls b.
Proof.
  intros Hsep. unfold parseUrls, splitSeparators.
  rewrite (parseUrls_split (splitFrom false [] (a ++ sep :: b))).
  rewrite (filter_splitFrom_app sep a b Hsep) by discriminate.
  rewrite omap_app, !omap_normalizeUrl_filter. reflexivity.
Qed.

(** X6: [parseUrls] of two texts joined by a newline or a comma is what
    it gives for the first followed by what it gives for the second. *)
Theorem parseUrls_join (a b : jsstring) :
  parseUrls (a ++ [10] ++ b) = parseUrls a ++ parseUrls b /\
  parseUrls (a ++ [44] ++ b) = parseUrls a ++ parseUrls b.
Proof. split; now apply parseUrls_app. Qed.

(** X7: uploading a file to the text area puts its URLs after those
    already there: [parseUrls] of the new value is [parseUrls] of the old
    value followed by [parseUrls] of the text of the file, the empty old
    value included. *)
Theorem appendFile_parseUrls (value text : jsstring) :
  parseUrls (appendFile value text) = parseUrls value ++ parseUrls text.
Proof.
  unfold appendFile. destruct value as [|c value]; [reflexivity|].
  cbn [truthy]. now apply parseUrls_app.
Qed.

Lemma splitFrom_pieces_plain (s : jsstring) :
  forall r cur,
    Forall (fun c => isSeparator c = false) cur ->
    Forall (Forall (fun c => isSeparator c = false)) (splitFrom r cur s).
Proof.
  induction s as [|c s IH]; intros r cur Hcur; simpl.
  - now constructor.
  - destruct (isSeparator c) eqn:Hc.
    + destruct r; [now apply IH | constructor; [assumption | now apply IH]].
    + apply IH. apply Forall_app. split; [assumption | now constructor].
Qed.

Lemma dropWhile_Forall (P : N -> Prop) p s :
  Forall P s -> Forall P (dropWhile p s).
Proof.
  induction 1 as [|c s Hc Hs IH]; simpl; [constructor|].
  destruct (p c); [exact IH | now constructor].
Qed.

Lemma dropWhileEnd_Forall (P : N -> Prop) p s :
  Forall P s -> Forall P (dropWhileEnd p s).
Proof.
  induction 1 as [|c s Hc Hs IH]; simpl; [constructor|].
  destruct (dropWhileEnd p s).
  - destruct (p c); [constructor | now constructor].
  - now constructor.
Qed.

Lemma parseUrls_plain (q : jsstring) :
  Forall (fun c => isSeparator c = false) q ->
  parseUrls q = option_list (normalizeUrl q).
Proof.
  intros Hq. unfold parseUrls, splitSeparators.
  assert (E : splitFrom false [] q = [q]).
  { rewrite <- (app_nil_r q) at 1. now rewrite splitFrom_plain. }
  rewrite E. cbn [omap list_omap]. now destruct (normalizeUrl q).
Qed.

(** X8: what the endpoint makes of the array the page submits is
    [parseUrls] of the text of the page: splitting and trimming in the
    page, then parsing each entry on the server, loses and adds nothing. *)
Theorem submitted_then_parsed (input : jsstring) :
  flat_map parseUrls (submittedUrls input) = parseUrls input.
Proof.
  unfold submittedUrls, parseUrls at 2, splitSeparators.
  assert (Hplain : Forall (Forall (fun c => isSeparator c = false))
                     (splitFrom false [] input))
    by (apply splitFrom_pieces_plain; constructor).
  revert Hplain. generalize (splitFrom false [] input). intros pieces Hplain.
  induction Hplain as [|p ps Hp _ IH]; [reflexivity|].
  cbn [List.map List.filter].
  assert (Hq : Forall (fun c => isSeparator c = false) (trim p))
    by now apply dropWhileEnd_Forall, dropWhile_Forall.
  cbn [omap list_omap]. fold (omap normalizeUrl ps).
  destruct (truthy (trim p)) eqn:Ht.
  - cbn [flat_map]. rewrite IH, (parseUrls_plain _ Hq), normalizeUrl_trim.
    now destruct (normalizeUrl p).
  - rewrite IH. unfold normalizeUrl. rewrite Ht. reflexivity.
Qed.

Lemma filter_splitLines (s : jsstring) :
  Forall (fun c => c <> 44) s ->
  forall r cur,
    (r = true -> cur = []) ->
    List.filter truthy (splitLinesFrom cur s) =
    List.filter truthy (splitFrom r cur s).
Proof.
  induction 1 as [|c s Hc _ IH]; intros r cur Hr; [reflexivity|].
  simpl. unfold isSeparator.
  destruct (c =? 10) eqn:E10; cbn [orb].
  - destruct r.
    + rewrite (Hr eq_refl). cbn [List.filter truthy]. now apply IH.
    + cbn [List.filter]. destruct (truthy cur); [f_equal|]; now apply IH.
  - apply N.eqb_neq in Hc. rewrite Hc. apply IH. discriminate.
Qed.

(** X9: on a file without comma the tool gathers the URLs [parseUrls]
    gives for its text, and it takes each positional argument as one
    entry. *)
Theorem gatherUrls_parseUrls (content : jsstring)
    (positionals : list jsstring) :
  Forall (fun c => c <> 44) content ->
  gatherUrls (Some content) positionals =
  parseUrls content ++ omap normalizeUrl positionals.
Proof.
  intros Hc. unfold gatherUrls, parseUrls, splitLines, splitSeparators.
  f_equal.
  rewrite (parseUrls_split (splitLinesFrom [] content)).
  rewrite (filter_splitLines content Hc false []) by discriminate.
  apply omap_normalizeUrl_filter.
Qed.

Lemma gatherUrls_parseUrls_witness :
  gatherUrls (Some (lit "# stores" ++ [10] ++ lit "a.example/" ++ [10]))
    [lit "b.example"] =
  [lit "https://a.example"; lit "https://b.example"].
Proof.
  rewrite gatherUrls_parseUrls.
  - reflexivity.
  - vm_compute. repeat constructor; discriminate.
Defined.

Lemma dropWhileEnd_keeps_front p a s :
  dropWhileEnd p s <> [] -> dropWhileEnd p (a ++ s) = a ++ dropWhileEnd p s.
Proof.
  intros H. induction a as [|c a IH]; [reflexivity|].
  simpl. rewrite IH. destruct (a ++ dropWhileEnd p s) eqn:E; [|reflexivity].
  apply app_eq_nil in E as [_ E]. congruence.
Qed.

(** X10: the table shows an entry given without scheme as it was typed,
    trimmed and without trailing slashes: removing the scheme from the
    normalized URL undoes the prefixing, as long as the entry is not made
    of slashes only. *)
Theorem stripScheme_normalizeUrl (piece : jsstring) (u : jsstring) :
  normalizeUrl piece = Some u ->
  startsWith (trim piece) (lit "http") = false ->
  stripTrailingSlashes (trim piece) <> [] ->
  stripScheme u = stripTrailingSlashes (trim piece).
Proof.
  intros Hu Hhttp Hne. apply normalizeUrl_Some in Hu as [-> _].
  rewrite Hhttp. unfold stripTrailingSlashes in *.
  rewrite dropWhileEnd_keeps_front by assumption. reflexivity.
Qed.

Lemma stripScheme_normalizeUrl_witness :
  stripScheme (lit "https://shop.example/de") = lit "shop.example/de".
Proof.
  apply (stripScheme_normalizeUrl (lit " shop.example/de// ")
           (lit "https://shop.example/de")).
  - reflexivity.
  - reflexivity.
  - vm_compute. discriminate.
Defined.

(** * The page and the results table *)

Lemma pendingKey_normalizeUrl (u v : jsstring) :
  normalizeUrl u = Some v -> pendingKey u = v.
Proof.
  intros H. apply normalizeUrl_Some in H as [-> _]. reflexivity.
Qed.

(** X11: when a result arrives it is put after the results already there,
    and among the pending entries that [normalizeUrl] keeps, those that
    normalize to the URL of the result leave the pending rows and the
    others stay. *)
Theorem onResult_pending (r : CheckResult) (st : PageState)
    (u v : jsstring) :
  In u (pending st) ->
  normalizeUrl u = Some v ->
  results (onResult r st) = results st ++ [r] /\
  (In u (pending (onResult r st)) <-> v <> url r).
Proof.
  intros Hin Hu. split; [reflexivity|].
  unfold onResult. cbn [pending].
  rewrite List.filter_In, (pendingKey_normalizeUrl u v Hu).
  rewrite negb_true_iff, bool_decide_eq_false. tauto.
Qed.

Lemma onResult_pending_witness :
  pending (onResult
             {| url := lit "https://a.example"; type := Legacy;
                status := Some 200; redirect := None; note := None;
                error := None |}
             {| loading := true; results := [];
                pending := [lit "a.example/"; lit "b.example"] |}) =
  [lit "b.example"] /\
  (In (lit "b.example")
      (pending (onResult
                  {| url := lit "https://a.example"; type := Legacy;
                     status := Some 200; redirect := None; note := None;
                     error := None |}
                  {| loading := true; results := [];
                     pending := [lit "a.example/"; lit "b.example"] |})) <->
   lit "https://b.example" <> lit "https://a.example").
Proof.
  split; [reflexivity|].
  refine (proj2 (onResult_pending _ _ (lit "b.example")
                   (lit "https://b.example") _ _)).
  - right. left. reflexivity.
  - reflexivity.
Defined.

Lemma bump_In_key t acc k :
  In k (List.map fst (bump t acc)) <-> k = t \/ In k (List.map fst acc).
Proof.
  induction acc as [|[k' n] acc IH]; simpl.
  - intuition congruence.
  - destruct (decide (k' = t)) as [->|Hne]; simpl;
      [intuition congruence|].
    rewrite IH. tauto.
Qed.

Lemma bump_NoDup t acc :
  NoDup (List.map fst acc) -> NoDup (List.map fst (bump t acc)).
Proof.
  induction acc as [|[k n] acc IH]; simpl; intros H.
  - apply NoDup_cons_2; [apply not_elem_of_nil | apply NoDup_nil_2].
  - destruct (decide (k = t)) as [->|Hne]; simpl; [exact H|].
    apply NoDup_cons in H as [Hk Hnd]. apply NoDup_cons_2; [|now apply IH].
    rewrite list_elem_of_In, bump_In_key, <- list_elem_of_In. tauto.
Qed.

Lemma bump_positive t acc :
  Forall (fun e => (0 < snd e)%nat) acc ->
  Forall (fun e => (0 < snd e)%nat) (bump t acc).
Proof.
  induction 1 as [|[k n] acc Hk Hacc IH]; simpl.
  - repeat constructor.
  - destruct (decide (k = t)); constructor; auto; simpl in *; lia.
Qed.

Lemma bump_countOf t acc t' :
  countOf t' (bump t acc) =
  (countOf t' acc + (if decide (t = t') then 1 else 0))%nat.
Proof.
  induction acc as [|[k n] acc IH]; simpl.
  - destruct (decide (t = t')); lia.
  - destruct (decide (k = t)) as [->|Hne]; simpl.
    + destruct (decide (t = t')); [|lia].
      destruct (n =? 0)%nat eqn:E; [apply Nat.eqb_eq in E|]; lia.
    + destruct (decide (k = t')) as [->|Hne'].
      * destruct (decide (t = t')); [congruence | lia].
      * exact IH.
Qed.

Lemma bump_sum t acc :
  list_sum (List.map snd (bump t acc)) = S (list_sum (List.map snd acc)).
Proof.
  induction acc as [|[k n] acc IH]; simpl; [reflexivity|].
  destruct (decide (k = t)); simpl.
  - destruct (n =? 0)%nat eqn:E; [apply Nat.eqb_eq in E|]; lia.
  - rewrite IH. lia.
Qed.

Lemma tally_from (rs : list CheckResult) :
  forall acc,
    NoDup (List.map fst acc) ->
    Forall (fun e => (0 < snd e)%nat) acc ->
    let res := fold_left (fun acc r => bump (type r) acc) rs acc in
    NoDup (List.map fst res) /\
    Forall (fun e => (0 < snd e)%nat) res /\
    (forall t,
       countOf t res =
       (countOf t acc +
        length (List.filter (fun r => bool_decide (type r = t)) rs))%nat) /\
    list_sum (List.map snd res) =
    (list_sum (List.map snd acc) + length rs)%nat.
Proof.
  induction rs as [|r rs IH]; intros acc Hnd Hpos; cbn [fold_left].
  - cbv zeta. repeat split; auto; try (intros t; simpl; lia); simpl; lia.
  - destruct (IH (bump (type r) acc) (bump_NoDup _ _ Hnd)
                (bump_positive _ _ Hpos)) as [H1 [H2 [H3 H4]]].
    cbv zeta. repeat split; auto.
    + intros t. rewrite H3, bump_countOf. cbn [List.filter].
      destruct (decide (type r = t)) as [E|E].
      * rewrite (bool_decide_eq_true_2 _ E). simpl. lia.
      * rewrite (bool_decide_eq_false_2 _ E). lia.
    + rewrite H4, bump_sum. simpl. lia.
Qed.

Lemma In_countOf t n acc :
  NoDup (List.map fst acc) -> In (t, n) acc -> countOf t acc = n.
Proof.
  induction acc as [|[k m] acc IH]; simpl; intros Hnd Hin; [contradiction|].
  apply NoDup_cons in Hnd as [Hk Hnd].
  destruct Hin as [E|Hin].
  - injection E as -> ->. now rewrite decide_True.
  - destruct (decide (k = t)) as [->|Hne]; [|now apply IH].
    exfalso. apply Hk. apply list_elem_of_In.
    apply (in_map fst) in Hin. exact Hin.
Qed.

Lemma countOf_In t acc :
  (0 < countOf t acc)%nat -> In (t, countOf t acc) acc.
Proof.
  induction acc as [|[k m] acc IH]; simpl; intros H; [lia|].
  destruct (decide (k = t)) as [->|Hne]; [now left | right; now apply IH].
Qed.

(** X12: the counts under the table (and in the summary of the tool) list
    each type that occurs among the results once, with the number of
    results of that type, and no other type; the counts add up to the
    number of results. *)
Theorem tally_counts (rs : list CheckResult) :
  NoDup (List.map fst (tally rs)) /\
  (forall t n,
     In (t, n) (tally rs) <->
     n = length (List.filter (fun r => bool_decide (type r = t)) rs) /\
     (0 < n)%nat) /\
  list_sum (List.map snd (tally rs)) = length rs.
Proof.
  destruct (tally_from rs [] NoDup_nil_2 (List.Forall_nil _))
    as [Hnd [Hpos [Hcount Hsum]]].
  fold (tally rs) in *. split; [exact Hnd|]. split; [|exact Hsum].
  intros t n. split.
  - intros Hin. split.
    + rewrite <- (In_countOf t n _ Hnd Hin), Hcount. reflexivity.
    + rewrite List.Forall_forall in Hpos. exact (Hpos _ Hin).
  - intros [-> Hn]. specialize (Hcount t). simpl in Hcount.
    rewrite <- Hcount. apply countOf_In. rewrite Hcount. exact Hn.
Qed.

(** ** Reading the stream *)

Lemma splitLinesFrom_nonempty cur s : splitLinesFrom cur s <> [].
Proof.
  revert cur. induction s as [|c s IH]; intros cur; simpl; [discriminate|].
  destruct (c =? 10); [discriminate | apply IH].
Qed.

Lemma splitLinesFrom_app (s t : jsstring) :
  forall cur,
    splitLinesFrom cur (s ++ t) =
    removelast (splitLinesFrom cur s) ++
    splitLinesFrom (or_empty (list.last (splitLinesFrom cur s))) t.
Proof.
  induction s as [|c s IH]; intros cur; [reflexivity|].
  simpl. destruct (c =? 10); [|apply IH].
  rewrite IH. assert (Hne := splitLinesFrom_nonempty [] s).
  destruct (splitLinesFrom [] s) as [|x xs]; [congruence | reflexivity].
Qed.

Lemma splitLinesFrom_plain (x t : jsstring) :
  Forall (fun c => c <> 10) x ->
  forall cur, splitLinesFrom cur (x ++ t) = splitLinesFrom (cur ++ x) t.
Proof.
  induction 1 as [|c x Hc _ IH]; intros cur; simpl.
  - now rewrite app_nil_r.
  - apply N.eqb_neq in Hc. rewrite Hc, IH, <- app_assoc. reflexivity.
Qed.

Lemma splitLinesFrom_pieces (s : jsstring) :
  forall cur,
    Forall (fun c => c <> 10) cur ->
    Forall (Forall (fun c => c <> 10)) (splitLinesFrom cur s).
Proof.
  induction s as [|c s IH]; intros cur Hcur; simpl.
  - now constructor.
  - destruct (c =? 10) eqn:E.
    + constructor; [assumption | apply IH; constructor].
    + apply IH. apply Forall_app. split; [assumption|].
      constructor; [now apply N.eqb_neq | constructor].
Qed.

Lemma last_line_plain (s : jsstring) :
  Forall (fun c => c <> 10) (or_empty (list.last (splitLinesFrom [] s))).
Proof.
  assert (H := splitLinesFrom_pieces s [] ltac:(constructor)).
  destruct (list.last (splitLinesFrom [] s)) as [l|] eqn:E; [|constructor].
  rewrite List.Forall_forall in H. apply H.
  apply list_elem_of_In. now apply last_Some_elem_of.
Qed.

Section PageTheory.

Variable parse : jsstring -> result CheckResult.

Local Abbreviation forLines := (forLines parse).
Local Abbreviation readLoop := (readLoop parse).
Local Abbreviation handleCheck := (handleCheck parse).

Lemma forLines_app (l1 l2 : list jsstring) :
  forall st,
    forLines (l1 ++ l2) st =
    match forLines l1 st with
    | (st1, Ok _) => forLines l2 st1
    | (st1, Throw e) => (st1, Throw e)
    end.
Proof.
  induction l1 as [|line l1 IH]; intros st; [reflexivity|].
  cbn [app forLines]. destruct (negb (truthy (trim line))); [apply IH|].
  destruct (parse line); [apply IH | reflexivity].
Qed.

(** Two chunks read one after the other are read as their concatenation
    is. *)
Lemma readLoop_merge (c1 c2 : jsstring) rest ending buffer st :
  readLoop (c1 :: c2 :: rest) ending buffer st =
  readLoop ((c1 ++ c2) :: rest) ending buffer st.
Proof.
  cbn [readLoop]. unfold popLine, splitLines.
  rewrite (app_assoc buffer c1 c2), (splitLinesFrom_app (buffer ++ c1) c2).
  set (L1 := splitLinesFrom [] (buffer ++ c1)).
  set (b1 := or_empty (list.last L1)).
  assert (Hb1 : Forall (fun c => c <> 10) b1) by apply last_line_plain.
  assert (E : splitLinesFrom b1 c2 = splitLinesFrom [] (b1 ++ c2))
    by (symmetry; apply (splitLinesFrom_plain b1 c2 Hb1 [])).
  rewrite E. clear E.
  set (L2 := splitLinesFrom [] (b1 ++ c2)).
  assert (HL2 : L2 <> []) by apply splitLinesFrom_nonempty.
  rewrite (removelast_app _ HL2), forLines_app.
  destruct (forLines (removelast L1) st) as [st1 [[]|e]]; [|reflexivity].
  rewrite last_app. destruct (list.last L2) eqn:E; [reflexivity|].
  apply last_None in E. congruence.
Qed.

Lemma readLoop_concat (c : jsstring) rest ending buffer st :
  readLoop (c :: rest) ending buffer st =
  readLoop [c ++ concat rest] ending buffer st.
Proof.
  revert c. induction rest as [|c2 rest IH]; intros c.
  - cbn [concat]. now rewrite app_nil_r.
  - rewrite readLoop_merge, IH. cbn [concat]. now rewrite app_assoc.
Qed.

(** X13: however the stream of the reply is cut into chunks, the page
    ends in the same state: the results, in particular, are those of
    reading the whole stream as one chunk. *)
Theorem handleCheck_chunking (input : jsstring) (st : PageState)
    (chunks : list jsstring) (ending : ReadEnd) :
  handleCheck input st (Body chunks ending) =
  handleCheck input st (Body [concat chunks] ending).
Proof.
  unfold handleCheck. destruct (length (submittedUrls input) =? 0)%nat;
    [reflexivity|].
  destruct chunks as [|c rest]; [reflexivity|].
  now rewrite readLoop_concat.
Qed.

Lemma splitLines_frames (serialize : CheckResult -> jsstring)
    (rs : list CheckResult) :
  (forall r, In r rs -> Forall (fun c => c <> 10) (serialize r)) ->
  splitLines (concat (List.map (fun r => serialize r ++ [10]) rs)) =
  List.map serialize rs ++ [[]].
Proof.
  unfold splitLines. induction rs as [|r rs IH]; intros H; [reflexivity|].
  cbn [List.map concat]. rewrite <- app_assoc.
  rewrite splitLinesFrom_plain by (apply H; now left).
  cbn [app splitLinesFrom]. change (10 =? 10) with true. cbv iota.
  rewrite IH; [reflexivity|]. intros r' Hr'. apply H. now right.
Qed.

Lemma forLines_frames (serialize : CheckResult -> jsstring)
    (rs : list CheckResult) :
  (forall r, In r rs ->
             parse (serialize r) = Ok r /\ trim (serialize r) <> []) ->
  forall st,
    exists st',
      forLines (List.map serialize rs) st = (st', Ok tt) /\
      results st' = results st ++ rs /\ loading st' = loading st.
Proof.
  induction rs as [|r rs IH]; intros H st.
  - exists st. now rewrite app_nil_r.
  - cbn [List.map forLines].
    destruct (H r (or_introl eq_refl)) as [Hp Ht].
    apply truthy_nonempty in Ht. rewrite Ht, Hp. cbn [negb].
    destruct (IH (fun r' Hr' => H r' (or_intror Hr')) (onResult r st))
      as [st' [Hf [Hr Hl]]].
    exists st'. split; [exact Hf|]. split; [|exact Hl].
    rewrite Hr. cbn [onResult results]. now rewrite <- app_assoc.
Qed.

(** X14: when the stream is made of one line per result, each ended by a
    newline, the lines being free of newlines, not blank and parsed back
    to the results they encode, the page ends with exactly those results,
    in order, however the stream is cut into chunks; nothing is left
    pending and the page is no longer loading. *)
Theorem handleCheck_shows_streamed (serialize : CheckResult -> jsstring)
    (rs : list CheckResult) (chunks : list jsstring) (input : jsstring)
    (st : PageState) :
  submittedUrls input <> [] ->
  (forall r, In r rs ->
             parse (serialize r) = Ok r /\
             Forall (fun c => c <> 10) (serialize r) /\
             trim (serialize r) <> []) ->
  concat chunks = concat (List.map (fun r => serialize r ++ [10]) rs) ->
  handleCheck input st (Body chunks Done) =
  {| loading := false; results := rs; pending := [] |}.
Proof.
  intros Hin Hcodec Hchunks. unfold handleCheck.
  destruct (submittedUrls input) as [|u us] eqn:Eu; [congruence|].
  cbn [length Nat.eqb].
  set (st0 := {| loading := true; results := []; pending := u :: us |}).
  assert (Hrun : exists st',
            readLoop [concat chunks] Done [] st0 = (st', Ok tt) /\
            results st' = rs).
  { rewrite Hchunks. cbn [readLoop app]. unfold popLine.
    rewrite splitLines_frames by (intros r Hr; apply (Hcodec r Hr)).
    rewrite last_snoc, removelast_last. cbn [or_empty].
    destruct (forLines_frames serialize rs
                (fun r Hr => conj (proj1 (Hcodec r Hr))
                                  (proj2 (proj2 (Hcodec r Hr)))) st0)
      as [st' [Hf [Hr _]]].
    rewrite Hf. exists st'. split; [reflexivity | exact Hr]. }
  destruct Hrun as [st' [Hrun Hres]].
  destruct chunks as [|c rest].
  - cbn [concat] in Hrun. cbn [readLoop] in Hrun |- *.
    unfold popLine in Hrun. cbn in Hrun.
    assert (st' = st0) by congruence. subst st'. cbn. now rewrite <- Hres.
  - rewrite readLoop_concat.
    change (c ++ concat rest) with (concat (c :: rest)).
    rewrite Hrun. cbn [fst]. now rewrite Hres.
Qed.

End PageTheory.

(** A codec that carries the URL only, enough to run the statement. *)
Lemma handleCheck_shows_streamed_witness :
  handleCheck
    (fun line => Ok {| url := line; type := Unknown; status := None;
                       redirect := None; note := None; error := None |})
    (lit "a.example")
    {| loading := false; results := []; pending := [] |}
    (Body [lit "https://a."; lit "example" ++ [10]] Done) =
  {| loading := false;
     results := [{| url := lit "https://a.example"; type := Unknown;
                    status := None; redirect := None; note := None;
                    error := None |}];
     pending := [] |}.
Proof.
  apply (handleCheck_shows_streamed _ url).
  - discriminate.
  - intros r [<-|[]]. split; [reflexivity|].
    split; [vm_compute; repeat constructor; discriminate|].
    vm_compute. discriminate.
  - reflexivity.
Defined.

(** * More on the endpoint, and the command-line tool *)

Section CallersTheory.

Variable url_hostname : jsstring -> result jsstring.
Variable url_href : jsstring -> jsstring -> result jsstring.
Context {Transport : Type}.
Variable transport_fetch :
  Transport -> Request -> Transport * result Response.
Variable view : nat -> @World Transport.

Local Abbreviation settled :=
  (settled url_hostname url_href transport_fetch view).
Local Abbreviation POST := (POST url_hostname url_href transport_fetch view).
Local Abbreviation settledJs :=
  (settledJs url_hostname url_href transport_fetch view).
Local Abbreviation checkFrom :=
  (checkFrom url_hostname url_href transport_fetch view).
Local Abbreviation main := (main url_hostname url_href transport_fetch view).

(** X15: the endpoint answers 400 exactly when no URL is left to check:
    with [No URLs provided] when the array is missing or empty, with
    [No valid URLs found] when it has entries but parsing leaves none;
    otherwise it streams at least one result and closes the stream. *)
Theorem POST_replies :
  POST None = Json400 (lit "No URLs provided") /\
  POST (Some []) = Json400 (lit "No URLs provided") /\
  (forall rawUrls,
     rawUrls <> [] -> flat_map parseUrls rawUrls = [] ->
     POST (Some rawUrls) = Json400 (lit "No valid URLs found")) /\
  (forall rawUrls,
     flat_map parseUrls rawUrls <> [] ->
     exists chunks,
       POST (Some rawUrls) = Streamed chunks Closed /\ chunks <> []).
Proof.
  split; [reflexivity|]. split; [reflexivity|]. split.
  - intros rawUrls Hne Hnone. unfold POST.
    destruct rawUrls as [|raw rawUrls]; [congruence|].
    rewrite Hnone. reflexivity.
  - intros rawUrls Hne.
    destruct (POST_streams url_hostname url_href transport_fetch view
                rawUrls Hne) as [chunks [HP [Hu _]]].
    exists chunks. split; [exact HP|]. intros ->.
    cbn in Hu. destruct (flat_map parseUrls rawUrls); [congruence|].
    discriminate.
Qed.

(** X16: when parsing leaves between one and 100 URLs, the endpoint
    streams one result for each of them, in their order, a URL that occurs
    several times being checked each time. *)
Theorem POST_checks_every_url (rawUrls : list jsstring) :
  flat_map parseUrls rawUrls <> [] ->
  (length (flat_map parseUrls rawUrls) <= 100)%nat ->
  exists chunks,
    POST (Some rawUrls) = Streamed chunks Closed /\
    url <$> chunks = flat_map parseUrls rawUrls /\
    Ok <$> chunks = imap settled (flat_map parseUrls rawUrls).
Proof.
  intros Hne Hlen.
  destruct (POST_streams url_hostname url_href transport_fetch view
              rawUrls Hne) as [chunks [HP [Hu Hc]]].
  rewrite take_ge in Hu, Hc by assumption. eauto.
Qed.




(** X17: how the tool ends without checking anything.  It prints the
    usage and exits with 0 when [--help] is given or when there is neither
    a file nor an argument; a file that cannot be read is an exception
    nothing catches; and when every line of the file and every argument is
    blank or a comment, it prints [No valid URLs provided.] on the error
    stream and exits with 1. *)
Theorem main_without_urls :
  (forall file positionals, main true file positionals = Exited 0 [usage] []) /\
  (forall help, main help None [] = Exited 0 [usage] []) /\
  (forall e positionals,
     main false (Some (Throw e)) positionals = Uncaught e []) /\
  (forall (content : option jsstring) positionals,
     content <> None \/ positionals <> [] ->
     (forall text line,
        content = Some text -> In line (splitLines text) ->
        blankOrComment line) ->
     (forall p, In p positionals -> blankOrComment p) ->
     main false (Ok <$> content) positionals =
     Exited 1 [] [lit "No valid URLs provided."]).
Proof.
  split; [reflexivity|]. split; [intros []; reflexivity|]. split.
  - intros e positionals. unfold main. cbn [orb].
    rewrite bool_decide_eq_true_2 by eauto. now rewrite andb_false_r.
  - intros content positionals Hgiven Hlines Hpos.
    assert (Hnone : forall l, (forall p, In p l -> blankOrComment p) ->
                              omap normalizeUrl l = []).
    { induction l as [|p l IH]; intros H; [reflexivity|].
      cbn [omap list_omap].
      rewrite (proj2 (normalizeUrl_None p) (H p (or_introl eq_refl))).
      apply IH. intros q Hq. apply H. now right. }
    assert (Hurls : gatherUrls content positionals = []).
    { unfold gatherUrls. rewrite (Hnone positionals Hpos).
      destruct content as [text|]; [|reflexivity].
      rewrite (Hnone (splitLines text)); [reflexivity|].
      intros line Hl. now apply (Hlines text). }
    unfold main. cbn [orb].
    assert (Husage : (length positionals =? 0)%nat &&
                     negb (bool_decide (is_Some (Ok <$> content))) = false).
    { destruct Hgiven as [Hc|Hp].
      - destruct content; [|congruence].
        rewrite bool_decide_eq_true_2 by (cbn; eauto).
        now rewrite andb_false_r.
      - destruct positionals; [congruence | reflexivity]. }
    rewrite Husage.
    destruct content as [text|]; cbn [fmap option_fmap option_map];
      rewrite Hurls; reflexivity.
Qed.


End CallersTheory.

(** * The further statements at concrete inputs *)

Lemma status_200_witness :
  snd (checkStore simple_hostname simple_href scripted shop
         (mkWorld [Ok (response 200 [] (lit "<a class=shopify-login>"))] []))
  = Ok {| url := shop; type := NotShopify; status := Some 200;
          redirect := None;
          note := Some (lit "Does not appear to be a Shopify store");
          error := None |}.
Proof.
  refine (f_equal snd
            (proj1 (status_200 simple_hostname simple_href scripted shop
                      _ 0 _ _ _ _
                      (response 200 [] (lit "<a class=shopify-login>"))
                      (lit "<a class=shopify-login>") _ _ _ _ _ _)
               _ _ _)).
  - apply follows_0.
  - lia.
  - vm_compute. reflexivity.
  - reflexivity.
  - intros location H. vm_compute in H. discriminate.
  - reflexivity.
  - intros [[v [E _]]|[[v [E _]]|[v [E _]]]]; vm_compute in E; discriminate.
  - apply not_includes_contains. vm_compute. reflexivity.
  - apply not_includes_contains. vm_compute. reflexivity.
Defined.

Lemma unexpected_status_witness :
  snd (checkStore simple_hostname simple_href scripted shop
         (mkWorld [Ok (response 302 [] [])] []))
  = Ok {| url := shop; type := Unknown; status := Some 302;
          redirect := None;
          note := Some (lit "Unexpected status 302 at "
                          ++ lit "https://shop.example/account/login");
          error := None |}.
Proof.
  refine (f_equal snd
            (unexpected_status simple_hostname simple_href scripted shop
               _ 0 _ _ _ _ (response 302 [] []) _ _ _ _ _ _ _ _)).
  - apply follows_0.
  - lia.
  - vm_compute. reflexivity.
  - intros location H. vm_compute in H. discriminate.
  - intros [_ [location [H _]]]. vm_compute in H. discriminate.
  - vm_compute. discriminate.
  - vm_compute. discriminate.
  - vm_compute. discriminate.
Defined.

Lemma POST_checks_every_url_witness :
  exists chunks,
    POST simple_hostname simple_href (site nowhere)
      (fun _ => mkWorld tt []) (Some [lit "a.example, a.example/"]) =
    Streamed chunks Closed /\
    url <$> chunks = [lit "https://a.example"; lit "https://a.example"].
Proof.
  destruct (POST_checks_every_url simple_hostname simple_href (site nowhere)
              (fun _ => mkWorld tt []) [lit "a.example, a.example/"])
    as [chunks [HP [Hu _]]].
  - vm_compute. discriminate.
  - vm_compute. lia.
  - exists chunks. split; [exact HP | exact Hu].
Defined.


(** What the tool prints for a store without login page, and that it
    drops a comment line whole where [parseUrls] would split it. *)
Example main_prints_not_shopify :
  main simple_hostname simple_href (site nowhere)
    (fun _ => mkWorld tt []) false None [lit "a.example"] =
  Exited 0
    [ lit "Checking 1 store(s)..." ++ [10];
      [55357; 57003] ++ lit " https://a.example " ++ emDash
      ++ lit " NOT A SHOPIFY STORE (No /account/login page found "
      ++ emDash ++ lit " likely not a Shopify store)";
      [10] ++ lit "--- Summary ---";
      lit "  NOT A SHOPIFY STORE: 1" ]
    [].
Proof. vm_compute. reflexivity. Qed.

Example gatherUrls_comment_with_comma :
  gatherUrls (Some (lit "#a,b")) [] = [] /\
  parseUrls (lit "#a,b") = [lit "https://b"].
Proof. split; reflexivity. Qed.

(** * Where the results of the probe come from *)

Section ProbeEvidence.

Variable url_hostname : jsstring -> result jsstring.
Variable url_href : jsstring -> jsstring -> result jsstring.
Context {Transport : Type}.
Variable transport_fetch :
  Transport -> Request -> Transport * result Response.

Local Abbreviation World := (@World Transport).
Local Abbreviation fetch := (fetch transport_fetch).
Local Abbreviation on_response := (on_response url_hostname url_href).
Local Abbreviation redirectLoop :=
  (redirectLoop url_hostname url_href transport_fetch).
Local Abbreviation checkStore :=
  (checkStore url_hostname url_href transport_fetch).
Local Abbreviation checkStoreJs :=
  (checkStoreJs url_hostname url_href transport_fetch).

(** A result of the loop is returned by the loop body on the last
    response received, or is the one of the exhausted loop. *)
Lemma loop_returns (storeUrl : jsstring) n :
  forall cur lastStatus (w w' : World) r,
    redirectLoop n storeUrl cur lastStatus w = (w', Ok r) ->
    (exists cur' resp,
       list.last (log w') = Some (mkEvent (request cur') (Ok resp)) /\
       on_response storeUrl cur' resp = Ok (Return r)) \/
    (type r = Unknown /\ note r = Some (lit "Too many redirects")).
Proof.
  induction n as [|n IH]; intros cur lastStatus w w' r H.
  - cbn [redirectLoop] in H. unfold ret in H. right.
    injection H as _ <-. split; reflexivity.
  - cbn [redirectLoop] in H. unfold bind at 1 in H.
    destruct (fetch (request cur) w) as [w1 o] eqn:Hf.
    assert (Hlog := fetch_log _ _ _ _ _ Hf).
    destruct o as [resp|e]; [|discriminate].
    unfold bind, lift in H.
    destruct (on_response storeUrl cur resp) as [[r'|next]|e] eqn:Hr;
      [| exact (IH _ _ _ _ _ H) | discriminate].
    unfold ret in H. assert (w' = w1) by congruence.
    assert (r' = r) by congruence. subst w' r'.
    left. exists cur, resp. split; [|exact Hr].
    rewrite Hlog. apply last_snoc.
Qed.

(** What the loop body returns, by type. *)
Lemma on_response_evidence storeUrl cur (resp : Response) r :
  on_response storeUrl cur resp = Ok (Return r) ->
  (type r = Legacy \/ type r = PasswordProtected ->
   resp_status resp = 200 /\
   exists body, resp_text resp = Ok body /\
                r = classifyFromBody storeUrl body 200) /\
  (type r = New ->
   (exists location, redirect r = Some location) \/
   (resp_status resp = 406 /\ cur <> storeUrl ++ lit "/account/login" /\
    exists host, note r = Some (lit "Redirected to custom account domain: "
                                  ++ host)) \/
   (resp_status resp = 200 /\
    exists body, resp_text resp = Ok body /\
                 r = classifyFromBody storeUrl body 200)).
Proof.
  unfold on_response.
  destruct (truthy _ && isNewAccountRedirect _).
  - intros H. injection H as <-.
    cbn [type redirect]. split; [intros [?|?]; discriminate | eauto].
  - destruct ((300 <=? resp_status resp) && (resp_status resp <? 400) &&
              truthy (or_empty (headers_get resp (lit "location")))).
    { intros H.
      destruct (if startsWith (or_empty (headers_get resp (lit "location")))
                     (lit "http")
                then Ok (or_empty (headers_get resp (lit "location")))
                else url_href (or_empty (headers_get resp (lit "location")))
                       cur); discriminate. }
    destruct ((resp_status resp =? 406) &&
              negb (bool_decide (cur = storeUrl ++ lit "/account/login")))
      eqn:H406.
    + apply andb_true_iff in H406 as [Hst Hcur].
      apply N.eqb_eq in Hst. apply negb_true_iff, bool_decide_eq_false in Hcur.
      destruct (url_hostname cur) as [rh|e]; cbn [bindR]; [|discriminate].
      destruct (url_hostname storeUrl) as [sh|e]; cbn [bindR]; [|discriminate].
      destruct (negb (bool_decide (rh = sh))); cbn [bindR].
      * intros H. injection H as <-.
        cbn [type note]. split; [intros [?|?]; discriminate|].
        intros _. right. left. eauto.
      * rewrite Hst. change (406 =? 200) with false.
        change (406 =? 404) with false. cbv iota.
        intros H. injection H as <-.
        cbn [type]. split; [intros [?|?]; discriminate | discriminate].
    + cbn [bindR]. destruct (resp_status resp =? 200) eqn:H200.
      * apply N.eqb_eq in H200.
        destruct (resp_text resp) as [body|e]; cbn [bindR]; [|discriminate].
        match goal with |- context [if ?b then _ else _] => destruct b end.
        -- intros H. injection H as <-.
           cbn [type]. split; [intros [?|?]; discriminate | discriminate].
        -- rewrite H200. intros H.
           assert (E : r = classifyFromBody storeUrl body 200) by congruence.
           split; intros _; [|right; right]; eauto.
      * destruct (resp_status resp =? 404);
          intros H; injection H as <-;
          cbn [type]; (split; [intros [?|?]; discriminate | discriminate]).
Qed.

(** X19: a result [Legacy] or [PasswordProtected] always comes from a 200
    response whose body was read and classified: the last response of the
    probe has status 200, and the body holds the password field for
    [Legacy], one of the two storefront-password marks for
    [PasswordProtected]. *)
Theorem legacy_comes_from_body (storeUrl : jsstring) (w w' : World) r :
  checkStore storeUrl w = (w', Ok r) ->
  type r = Legacy \/ type r = PasswordProtected ->
  exists cur resp body,
    list.last (log w') = Some (mkEvent (request cur) (Ok resp)) /\
    resp_status resp = 200 /\ resp_text resp = Ok body /\
    r = classifyFromBody storeUrl body 200 /\
    (type r = Legacy -> HasPasswordField body) /\
    (type r = PasswordProtected ->
     contains body (lit "password-page") \/
     contains body (lit "storefront-password")).
Proof.
  intros H Hty. unfold checkStore, try_catch in H.
  destruct (redirectLoop maxRedirects storeUrl
              (storeUrl ++ lit "/account/login") 0 w) as [w1 [r1|e]] eqn:Hl.
  - assert (w1 = w') by congruence. assert (r1 = r) by congruence. subst.
    destruct (loop_returns _ _ _ _ _ _ _ Hl) as [[cur [resp [Hlast Hr]]]|[Hu _]].
    + destruct (proj1 (on_response_evidence _ _ _ _ Hr) Hty)
        as [Hst [body [Hbody Hcl]]].
      exists cur, resp, body. repeat (split; [assumption|]).
      destruct (classifyFromBody_types storeUrl body 200)
        as [_ [Hleg [Hpp _]]].
      rewrite Hcl. split; intros Ht.
      * now apply Hleg.
      * now apply Hpp in Ht.
    + destruct Hty as [Ht|Ht]; congruence.
  - unfold on_exception, ret in H. injection H as _ <-.
    destruct Hty; discriminate.
Qed.

(** X20: a result [New] always has one of three grounds: a [redirect]
    (the Location of the last response, which holds a signal), a 406 from
    a candidate other than the login URL with the note naming the custom
    domain, or a 200 whose body, read and classified, holds a new-account
    signal. *)
Theorem new_has_a_ground (storeUrl : jsstring) (w w' : World) r :
  checkStore storeUrl w = (w', Ok r) ->
  type r = New ->
  exists cur resp,
    list.last (log w') = Some (mkEvent (request cur) (Ok resp)) /\
    ((exists location,
        redirect r = Some location /\
        headers_get resp (lit "location") = Some location /\
        hasRedirectSignal location) \/
     (resp_status resp = 406 /\ cur <> storeUrl ++ lit "/account/login" /\
      exists host,
        note r = Some (lit "Redirected to custom account domain: " ++ host)) \/
     (resp_status resp = 200 /\
      exists body,
        resp_text resp = Ok body /\ HasNewSignal body /\
        r = classifyFromBody storeUrl body 200)).
Proof.
  intros H Hty. unfold checkStore, try_catch in H.
  destruct (redirectLoop maxRedirects storeUrl
              (storeUrl ++ lit "/account/login") 0 w) as [w1 [r1|e]] eqn:Hl.
  - assert (w1 = w') by congruence. assert (r1 = r) by congruence. subst.
    destruct (loop_returns _ _ _ _ _ _ _ Hl)
      as [[cur [resp [Hlast Hr]]]|[Hu _]]; [|congruence].
    exists cur, resp. split; [exact Hlast|].
    destruct (proj2 (on_response_evidence _ _ _ _ Hr) Hty)
      as [[location Hred]|[H406|[Hst [body [Hbody Hcl]]]]].
    + left. exists location. split; [exact Hred|].
      destruct (on_response_return _ _ _ _ _ _ Hr) as [_ [_ [_ [_ Hm]]]].
      rewrite Hred in Hm. tauto.
    + right. left. exact H406.
    + right. right. split; [exact Hst|]. exists body.
      split; [exact Hbody|]. split; [|exact Hcl].
      destruct (classifyFromBody_types storeUrl body 200) as [Hnew _].
      apply Hnew. now rewrite <- Hcl.
  - unfold on_exception, ret in H. injection H as _ <-. discriminate.
Qed.

(** X21: the body of a response is read only when the status is 200 and
    the Location holds no signal: for any other response the loop body
    gives the same outcome whatever the body is, also when reading it
    would throw. *)
Theorem body_read_only_on_200 storeUrl cur (resp : Response)
    (text' : result jsstring) :
  resp_status resp <> 200 \/
  (exists location,
     headers_get resp (lit "location") = Some location /\
     hasRedirectSignal location) ->
  on_response storeUrl cur
    {| resp_status := resp_status resp; resp_headers := resp_headers resp;
       resp_text := text' |} =
  on_response storeUrl cur resp.
Proof.
  intros [Hst|[location [Hloc Hsig]]].
  - unfold on_response, headers_get. cbn [resp_status resp_headers resp_text].
    apply N.eqb_neq in Hst. rewrite Hst. reflexivity.
  - rewrite (on_response_signal url_hostname url_href storeUrl cur resp
               location Hloc Hsig).
    exact (on_response_signal url_hostname url_href storeUrl cur
             {| resp_status := resp_status resp;
                resp_headers := resp_headers resp; resp_text := text' |}
             location Hloc Hsig).
Qed.


End ProbeEvidence.

Lemma legacy_comes_from_body_witness :
  exists cur resp body,
    list.last (log (fst (checkStore simple_hostname simple_href scripted shop
                           legacyForm))) =
    Some (mkEvent (request cur) (Ok resp)) /\
    resp_status resp = 200 /\ resp_text resp = Ok body /\
    HasPasswordField body.
Proof.
  destruct (legacy_comes_from_body simple_hostname simple_href scripted shop
              legacyForm
              (fst (checkStore simple_hostname simple_href scripted shop
                      legacyForm))
              (classifyFromBody shop
                 (lit "<form action=" ++ quoted "/account/login" ++
                  lit "><input name=" ++ quoted "customer[password]" ++
                  lit " type=" ++ quoted "password" ++ lit "></form>") 200))
    as [cur [resp [body [Hlast [Hst [Hbody [_ [Hleg _]]]]]]]].
  - vm_compute. reflexivity.
  - left. vm_compute. reflexivity.
  - exists cur, resp, body. repeat (split; [assumption|]).
    apply Hleg. vm_compute. reflexivity.
Defined.

Lemma new_has_a_ground_witness :
  exists cur resp,
    list.last (log (fst (checkStore simple_hostname simple_href scripted shop
                           hostedLogin))) =
    Some (mkEvent (request cur) (Ok resp)) /\
    headers_get resp (lit "location") =
    Some (lit "https://shop.example/auth/login").
Proof.
  destruct (new_has_a_ground simple_hostname simple_href scripted shop
              hostedLogin
              (fst (checkStore simple_hostname simple_href scripted shop
                      hostedLogin))
              {| url := shop; type := New; status := Some 302;
                 redirect := Some (lit "https://shop.example/auth/login");
                 note := None; error := None |})
    as [cur [resp [Hlast Hground]]].
  - vm_compute. reflexivity.
  - reflexivity.
  - exists cur, resp. split; [exact Hlast|].
    destruct Hground as [[location [Hred [Hloc _]]]|[[_ [_ [host Hn]]]|
                         [_ [body [_ [_ Hcl]]]]]].
    + cbn [redirect] in Hred. congruence.
    + discriminate.
    + exfalso. apply (f_equal redirect) in Hcl. cbn [redirect] in Hcl.
      rewrite (proj1 (proj2 (proj2 (classifyFromBody_fields shop body 200))))
        in Hcl.
      discriminate.
Defined.

Lemma body_read_only_on_200_witness :
  on_response simple_hostname simple_href shop
    (lit "https://shop.example/account/login")
    {| resp_status := 503; resp_headers := ∅;
       resp_text := Throw (ErrorObject (lit "terminated")) |} =
  on_response simple_hostname simple_href shop
    (lit "https://shop.example/account/login") (response 503 [] []).
Proof.
  apply (body_read_only_on_200 simple_hostname simple_href shop _
           (response 503 [] [])).
  left. vm_compute. discriminate.
Defined.

